(** * qutebrowser.misc.throttle: a throttle for function calls

    A shallow embedding of [Throttle] (src/qutebrowser/misc/throttle.py) and
    the properties of its leading-edge / trailing-edge behaviour.

    Time is the integer millisecond reading [int(time.monotonic() * 1000)].
    The wrapped callable [_func] is arbitrary Python: what matters here is
    what it does to the throttle while it runs, so it is a function from the
    call's arguments to the list of things it does (calling the throttle
    again, [set_delay], [cancel], taking time).  Each call of [_func] is
    recorded, with its time and arguments, in the world's [calls]. *)

From Stdlib Require Import ZArith List Bool String Lia.
Import ListNotations.
Local Open Scope Z_scope.

Section Model.

(** Python's [Any]: the values passed through to the wrapped callable. *)
Variable Any : Type.

(** ** Data *)

(** [@dataclasses.dataclass class _CallArgs]. *)
Record _CallArgs : Type := mk_CallArgs {
  args : list Any;
  kwargs : list (string * Any)
}.

(** What the wrapped callable does to the throttle while it runs. *)
Inductive callback : Type :=
| Reenter (a : _CallArgs)    (* throttle.__call__ with the arguments a *)
| ReSetDelay (delay_ms : Z)  (* throttle.set_delay(delay_ms) *)
| ReCancel                   (* throttle.cancel() *)
| Elapse (ms : N).           (* the callable takes [ms] milliseconds *)

(** Modelled from the spec: [usertypes.Timer] (a single-shot [QTimer]) is not
    among the sources; the spec describes it as a single-shot
    deferred-execution facility: run the callback once, after N milliseconds,
    unless cancelled.  [interval] is what [setInterval] stored, [receivers]
    counts the connections of [_call_pending] to the [timeout] signal, and
    [deadline] is [Some t] when the timer is armed and due at time [t]. *)
Record Timer : Type := mkTimer {
  interval : Z;
  receivers : nat;
  deadline : option Z
}.

(** The fields of a [Throttle] object. *)
Record Throttle : Type := mkThrottle {
  _delay_ms : Z;
  _func : _CallArgs -> list callback;
  _pending_call : option _CallArgs;
  _last_call_ms : option Z;
  _timer : Timer
}.

(** The throttle together with the clock and the record of the calls of
    [_func] made so far (oldest first). *)
Record World : Type := mkWorld {
  self : Throttle;
  monotonic_ms : Z;
  calls : list (Z * _CallArgs)
}.

Inductive exn : Type :=
| AssertionError
| RecursionError.

(** A method either returns, or raises with the state as it was then. *)
Inductive result : Type :=
| Ok (w : World)
| Raise (e : exn) (w : World).

Definition bind (r : result) (k : World -> result) : result :=
  match r with
  | Ok w => k w
  | Raise e w => Raise e w
  end.

(** ** Field updates *)

Definition set_self (s : Throttle) (w : World) : World :=
  {| self := s; monotonic_ms := monotonic_ms w; calls := calls w |}.

Definition with_delay_ms (d : Z) (s : Throttle) : Throttle :=
  {| _delay_ms := d; _func := _func s; _pending_call := _pending_call s;
     _last_call_ms := _last_call_ms s; _timer := _timer s |}.

Definition with_pending_call (p : option _CallArgs) (s : Throttle) : Throttle :=
  {| _delay_ms := _delay_ms s; _func := _func s; _pending_call := p;
     _last_call_ms := _last_call_ms s; _timer := _timer s |}.

Definition with_last_call_ms (l : option Z) (s : Throttle) : Throttle :=
  {| _delay_ms := _delay_ms s; _func := _func s; _pending_call := _pending_call s;
     _last_call_ms := l; _timer := _timer s |}.

Definition with_timer (t : Timer) (s : Throttle) : Throttle :=
  {| _delay_ms := _delay_ms s; _func := _func s; _pending_call := _pending_call s;
     _last_call_ms := _last_call_ms s; _timer := t |}.

(** ** The timer *)

(** Modelled from the spec: [setInterval]; an armed timer is re-armed with
    the new interval. *)
Definition setInterval (msec now : Z) (t : Timer) : Timer :=
  {| interval := msec; receivers := receivers t;
     deadline := match deadline t with
                 | Some _ => Some (now + msec)
                 | None => None
                 end |}.

(** Modelled from the spec: [timeout.disconnect()] drops every connection;
    with nothing connected it raises [TypeError] ([None] here). *)
Definition disconnect (t : Timer) : option Timer :=
  match receivers t with
  | O => None
  | S _ => Some {| interval := interval t; receivers := O; deadline := deadline t |}
  end.

(** Modelled from the spec: [timeout.connect(self._call_pending)]. *)
Definition connect (t : Timer) : Timer :=
  {| interval := interval t; receivers := S (receivers t); deadline := deadline t |}.

(** Modelled from the spec: [start()] arms the timer, due [interval]
    milliseconds from now. *)
Definition start (now : Z) (t : Timer) : Timer :=
  {| interval := interval t; receivers := receivers t;
     deadline := Some (now + interval t) |}.

(** Modelled from the spec: [stop()] disarms the timer. *)
Definition stop (t : Timer) : Timer :=
  {| interval := interval t; receivers := receivers t; deadline := None |}.

(** ** The methods *)

(** [Throttle.__init__(func, delay_ms)]. *)
Definition __init__ (func : _CallArgs -> list callback) (delay_ms : Z) : Throttle :=
  {| _delay_ms := delay_ms; _func := func; _pending_call := None;
     _last_call_ms := None;
     _timer := {| interval := 0; receivers := O; deadline := None |} |}.

(** [Throttle.set_delay]. *)
Definition set_delay (delay_ms : Z) (w : World) : World :=
  set_self (with_delay_ms delay_ms (self w)) w.

(** [Throttle.cancel]. *)
Definition cancel (w : World) : World :=
  set_self (with_timer (stop (_timer (self w))) (self w)) w.

(** The wrapped callable is entered: the call is recorded. *)
Definition record_call (a : _CallArgs) (w : World) : World :=
  {| self := self w; monotonic_ms := monotonic_ms w;
     calls := calls w ++ [(monotonic_ms w, a)] |}.

(** Time passes while the wrapped callable runs. *)
Definition elapse (ms : N) (w : World) : World :=
  {| self := self w; monotonic_ms := monotonic_ms w + Z.of_N ms; calls := calls w |}.

(** The call of [self._func] with the arguments [a], where [run] runs what
    the callable does. *)
Definition call_func (run : list callback -> World -> result)
    (a : _CallArgs) (w : World) : result :=
  run (_func (self w) a) (record_call a w).

(** The body of [Throttle.__call__]. *)
Definition call_body (run : list callback -> World -> result)
    (a : _CallArgs) (w : World) : result :=
  let cur_time_ms := monotonic_ms w in
  let s := self w in
  (* Call right now *)
  let right_now :=
    call_func run a (set_self (with_last_call_ms (Some cur_time_ms) s) w) in
  match _pending_call s with
  | None =>
    match _last_call_ms s with
    | None => right_now
    | Some last =>
      if cur_time_ms - last >? _delay_ms s then right_now
      else
        let t1 := setInterval (_delay_ms s - (cur_time_ms - last)) cur_time_ms (_timer s) in
        let t2 := match disconnect t1 with
                  | Some t => t
                  | None => t1    (* except TypeError: pass *)
                  end in
        let t3 := start cur_time_ms (connect t2) in
        Ok (set_self (with_pending_call (Some a) (with_timer t3 s)) w)
    end
  | Some _ =>
    (* Update arguments for an existing pending call *)
    Ok (set_self (with_pending_call (Some a) s) w)
  end.

(** What the wrapped callable does, step by step.  [depth] bounds the nesting
    of calls of the throttle from inside the callable: Python raises
    [RecursionError] beyond its recursion limit. *)
Fixpoint run_func (depth : nat) : list callback -> World -> result :=
  fix go (cbs : list callback) (w : World) : result :=
    match cbs with
    | [] => Ok w
    | cb :: rest =>
      bind
        match cb with
        | Reenter a =>
          match depth with
          | O => Raise RecursionError w
          | S d => call_body (run_func d) a w
          end
        | ReSetDelay d => Ok (set_delay d w)
        | ReCancel => Ok (cancel w)
        | Elapse ms => Ok (elapse ms w)
        end
        (go rest)
    end.

(** [Throttle.__call__]. *)
Definition __call__ (depth : nat) (a : _CallArgs) (w : World) : result :=
  call_body (run_func depth) a w.

(** [Throttle._call_pending]. *)
Definition _call_pending (depth : nat) (w : World) : result :=
  match _pending_call (self w) with
  | None => Raise AssertionError w
  | Some p =>
    bind (call_func (run_func depth) p w)
      (fun w1 =>
         let s1 := with_pending_call None (self w1) in
         Ok (set_self (with_last_call_ms (Some (monotonic_ms w1)) s1) w1))
  end.

(** ** The event loop *)

(** Modelled from the spec: the single-shot timer fires; it is disarmed and
    every connected receiver is called. *)
Fixpoint emit (n : nat) (slot : World -> result) (w : World) : result :=
  match n with
  | O => Ok w
  | S k => bind (slot w) (emit k slot)
  end.

(** Modelled from the spec: a single-shot timer that fires is no longer
    armed. *)
Definition expire (w : World) : World :=
  set_self (with_timer (stop (_timer (self w))) (self w)) w.

(** Modelled from the spec: the [timeout] signal of the timer; here the only
    receiver ever connected is [_call_pending]. *)
Definition timeout (depth : nat) (w : World) : result :=
  emit (receivers (_timer (self w))) (_call_pending depth) (expire w).

(** What the event loop delivers to the throttle: a call from the
    application, [set_delay], [cancel], or the timer firing. *)
Inductive event : Type :=
| Call (a : _CallArgs)
| SetDelay (delay_ms : Z)
| Cancel
| TimerFires.

(** An event can happen at time [t] when the clock has not passed [t], and,
    for the timer, when it is armed and due. *)
Definition enabled (t : Z) (e : event) (w : World) : bool :=
  (monotonic_ms w <=? t) &&
  match e with
  | TimerFires =>
    match deadline (_timer (self w)) with
    | Some d => d <=? t
    | None => false
    end
  | _ => true
  end.

(** The clock reads [t]. *)
Definition at_time (t : Z) (w : World) : World :=
  {| self := self w; monotonic_ms := t; calls := calls w |}.

(** The method, or the slot, that an event runs. *)
Definition handle (depth : nat) (e : event) (w : World) : result :=
  match e with
  | Call a => __call__ depth a w
  | SetDelay d => Ok (set_delay d w)
  | Cancel => Ok (cancel w)
  | TimerFires => timeout depth w
  end.

(** How a schedule ends: all events handled, an exception that nothing
    catches, or a schedule that cannot happen (an event before the clock, the
    timer firing when it is not due). *)
Inductive outcome : Type :=
| Finished (w : World)
| Crashed (e : exn) (w : World)
| Impossible.

(** The event loop runs a schedule of timed events. *)
Fixpoint run (depth : nat) (evs : list (Z * event)) (w : World) : outcome :=
  match evs with
  | [] => Finished w
  | (t, e) :: rest =>
    if enabled t e w then
      match handle depth e (at_time t w) with
      | Ok w' => run depth rest w'
      | Raise x w' => Crashed x w'
      end
    else Impossible
  end.

(** The state a method leaves, returning or raising. *)
Definition world_of (r : result) : World :=
  match r with
  | Ok w => w
  | Raise _ w => w
  end.

(** The wrapped callable does nothing to the throttle. *)
Definition passive (s : Throttle) : Prop := forall a, _func s a = [].

(** What every method preserves: no method replaces [_func], the clock never
    goes backwards, and the record of calls only grows. *)
Definition extends (w w' : World) : Prop :=
  _func (self w') = _func (self w) /\
  monotonic_ms w <= monotonic_ms w' /\
  exists more, calls w' = calls w ++ more.

(** A fresh throttle at time [now], with the calls recorded so far. *)
Definition fresh (func : _CallArgs -> list callback) (delay_ms now : Z)
    (log : list (Z * _CallArgs)) : World :=
  {| self := __init__ func delay_ms; monotonic_ms := now; calls := log |}.

(** A schedule made of calls of the throttle only. *)
Definition requests (reqs : list (Z * _CallArgs)) : list (Z * event) :=
  map (fun r => (fst r, Call (snd r))) reqs.

(** The events that leave [_delay_ms] alone. *)
Definition keeps_delay (e : event) : bool :=
  match e with
  | SetDelay _ => false
  | _ => true
  end.

(** The state of a throttle with delay [C] whose callable is passive, from a
    call made right away at time [t0] on: the calls recorded since (after
    [log]) are not earlier than [t0 + C]; an armed timer is connected once
    and has a pending call to make; and, as long as the clock is before
    [t0 + C], the last call is the one at [t0] and the timer is not due
    before [t0 + C]. *)
Definition in_window (C t0 : Z) (log : list (Z * _CallArgs)) (w : World) : Prop :=
  passive (self w) /\
  _delay_ms (self w) = C /\
  (forall d, deadline (_timer (self w)) = Some d ->
             receivers (_timer (self w)) = 1%nat /\ _pending_call (self w) <> None) /\
  (exists later, calls w = log ++ later /\ Forall (fun tc => t0 + C <= fst tc) later) /\
  (monotonic_ms w < t0 + C ->
   _last_call_ms (self w) = Some t0 /\
   forall d, deadline (_timer (self w)) = Some d -> t0 + C <= d).

(** The times of a schedule do not go backwards. *)
Fixpoint in_order (now : Z) (ts : list Z) : bool :=
  match ts with
  | [] => true
  | t :: rest => (now <=? t) && in_order t rest
  end.

End Model.

Arguments mk_CallArgs {Any}.
Arguments args {Any}.
Arguments kwargs {Any}.
Arguments Reenter {Any}.
Arguments ReSetDelay {Any}.
Arguments ReCancel {Any}.
Arguments Elapse {Any}.
Arguments mkThrottle {Any}.
Arguments _delay_ms {Any}.
Arguments _func {Any}.
Arguments _pending_call {Any}.
Arguments _last_call_ms {Any}.
Arguments _timer {Any}.
Arguments mkWorld {Any}.
Arguments self {Any}.
Arguments monotonic_ms {Any}.
Arguments calls {Any}.
Arguments Ok {Any}.
Arguments Raise {Any}.
Arguments bind {Any}.
Arguments set_self {Any}.
Arguments with_delay_ms {Any}.
Arguments with_pending_call {Any}.
Arguments with_last_call_ms {Any}.
Arguments with_timer {Any}.
Arguments __init__ {Any}.
Arguments set_delay {Any}.
Arguments cancel {Any}.
Arguments record_call {Any}.
Arguments elapse {Any}.
Arguments call_func {Any}.
Arguments call_body {Any}.
Arguments run_func {Any}.
Arguments __call__ {Any}.
Arguments _call_pending {Any}.
Arguments emit {Any}.
Arguments expire {Any}.
Arguments timeout {Any}.
Arguments Call {Any}.
Arguments SetDelay {Any}.
Arguments Cancel {Any}.
Arguments TimerFires {Any}.
Arguments enabled {Any}.
Arguments at_time {Any}.
Arguments handle {Any}.
Arguments Finished {Any}.
Arguments Crashed {Any}.
Arguments Impossible {Any}.
Arguments run {Any}.
Arguments world_of {Any}.
Arguments passive {Any}.
Arguments extends {Any}.
Arguments fresh {Any}.
Arguments requests {Any}.
Arguments keeps_delay {Any}.
Arguments in_window {Any}.

(** * Scenarios

    Throttles whose arguments are integers, as in the scenario of the
    specification: delay 100, a call with 1 at time 0, a call with 2 at
    time 10. *)

Definition arg (n : Z) : _CallArgs Z := {| args := [n]; kwargs := [] |}.

(** A callable that leaves the throttle alone. *)
Definition idle : _CallArgs Z -> list (callback Z) := fun _ => [].

(** A callable that calls the throttle again, with 3, when it is called
    with 2. *)
Definition recalls : _CallArgs Z -> list (callback Z) :=
  fun a =>
    match args a with
    | [2] => [Reenter (arg 3)]
    | _ => []
    end.

(** After the call with 1 at time 0. *)
Definition called_once : World Z :=
  {| self := with_last_call_ms (Some 0) (__init__ idle 100);
     monotonic_ms := 0;
     calls := [(0, arg 1)] |}.

(** After the call with 2 at time 10: pending, the timer due at 100. *)
Definition armed : World Z :=
  {| self :=
       {| _delay_ms := 100; _func := idle; _pending_call := Some (arg 2);
          _last_call_ms := Some 0;
          _timer := {| interval := 90; receivers := 1; deadline := Some 100 |} |};
     monotonic_ms := 10;
     calls := [(0, arg 1)] |}.

(** A throttle with the delay -1, just after a call with 1 at time 0. *)
Definition disabled_called_once : World Z :=
  {| self := with_last_call_ms (Some 0) (__init__ idle (-1));
     monotonic_ms := 0;
     calls := [(0, arg 1)] |}.

(** * Runs of the throttle: what the reachable states satisfy *)

Section Invariants.

Context {Any : Type}.

(** An armed timer has [_call_pending] connected exactly once, and a call
    to make. *)
Definition armed_ok (w : World Any) : Prop :=
  forall d, deadline (_timer (self w)) = Some d ->
    receivers (_timer (self w)) = 1%nat /\ _pending_call (self w) <> None.

(** A call is pending and no timer is armed: the state in which the wrapped
    callable runs inside [_call_pending], and the state [cancel] leaves when
    a call is pending. *)
Definition unarmed_pending (w : World Any) : Prop :=
  _pending_call (self w) <> None /\ deadline (_timer (self w)) = None.

(** The clock is at [t0] or later, and [_last_call_ms] holds a time that is
    [t0] or later. *)
Definition called_since (t0 : Z) (w : World Any) : Prop :=
  t0 <= monotonic_ms w /\
  exists l, _last_call_ms (self w) = Some l /\ t0 <= l.

(** The state in which a schedule ends, if it can happen. *)
Definition final (o : outcome Any) : option (World Any) :=
  match o with
  | Finished w => Some w
  | Crashed _ w => Some w
  | Impossible => None
  end.

End Invariants.



Section Pace.

Context {Any : Type}.


End Pace.

(** A callable that leaves the throttle alone and takes 7 milliseconds. *)
Definition slow : _CallArgs Z -> list (callback Z) := fun _ => [Elapse 7].

(** A callable that cancels the throttle. *)
Definition cancels : _CallArgs Z -> list (callback Z) := fun _ => [ReCancel].

(** A throttle whose callable cancels it, with 2 pending and the timer due
    at 100. *)
Definition armed_cancelling : World Z :=
  {| self :=
       {| _delay_ms := 100; _func := cancels; _pending_call := Some (arg 2);
          _last_call_ms := Some 0;
          _timer := {| interval := 90; receivers := 1; deadline := Some 100 |} |};
     monotonic_ms := 100;
     calls := [(0, arg 1)] |}.

(** A callable that takes 5 milliseconds and then calls the throttle with
    3. *)
Definition late_recalls : _CallArgs Z -> list (callback Z) :=
  fun _ => [Elapse 5; Reenter (arg 3)].

(** A callable that calls the throttle again with the arguments it got. *)
Definition again : _CallArgs Z -> list (callback Z) := fun a => [Reenter a].

(** * qutebrowser.browser.webkit.webkittab: the QtWebKit tab

    Of the tab only the parts that compute something are modelled: the
    selector [find_id] builds, the loop of [_key_press], and the flags and
    results of [WebKitSearch]. Qt's widget and page are parameters. *)

Module WebKitElements.

(** A Python [str], by its code points. *)
Definition str := list N.

(** The characters of the class [a-zA-Z0-9_-]. *)
Definition in_class (c : N) : bool :=
  (((97 <=? c) && (c <=? 122)) || ((65 <=? c) && (c <=? 90)) ||
   ((48 <=? c) && (c <=? 57)) || (c =? 95) || (c =? 45))%N.

Definition backslash : N := 92.

Definition hash : N := 35.

(** [re.sub(r'[^a-zA-Z0-9_-]', r'\\\g<0>', elem_id)]: every character that
    is not in the class is replaced by a backslash and itself. *)
Fixpoint escape (elem_id : str) : str :=
  match elem_id with
  | [] => []
  | c :: rest =>
      if in_class c then c :: escape rest
      else backslash :: c :: escape rest
  end.

(** The selector [find_id] hands to [find_css]: ['#' + elem_id], with
    [elem_id] escaped. *)
Definition selector (elem_id : str) : str := hash :: escape elem_id.

(** The characters of [s] that are not in the class. *)
Definition escaped (s : str) : list N :=
  filter (fun c => negb (in_class c)) s.

(** How a selector is read back: a character of the class stands for
    itself, and a backslash escapes the character after it, which is not of
    the class (a backslash before a letter or a digit would mean something
    else).  A character outside the class without a backslash before it, or
    a backslash with nothing to escape, cannot be read. *)
Fixpoint unescape (sel : str) : option str :=
  match sel with
  | [] => Some []
  | c :: rest =>
      if in_class c then option_map (cons c) (unescape rest)
      else if (c =? backslash)%N then
        match rest with
        | [] => None
        | d :: rest' =>
            if in_class d then None
            else option_map (cons d) (unescape rest')
        end
      else None
  end.

(** The ids [a.b] and [a\.b], for the examples. *)
Definition dotted : str := [97; 46; 98]%N.

Definition dotted_escaped : str := [97; 92; 46; 98]%N.

End WebKitElements.

Module WebKitScroller.

(** [Qt.Key], the keys the scroller sends. *)
Inductive Key :=
| Key_Up | Key_Down | Key_Left | Key_Right
| Key_Home | Key_End | Key_PageUp | Key_PageDown.

(** [Qt.Orientation]. *)
Inductive Orientation := Horizontal | Vertical.

(** The values of [getter_name]: the name of a method of the frame. *)
Inductive getter_name := scrollBarMinimum_name | scrollBarMaximum_name.

Section Scroller.

(** The page shown in the widget, with the scroll bars of its main frame,
    and what it does with a key press ([AbstractTab.fake_key_press], which
    posts the press and the release to the widget). *)
Variable Page : Type.
Variable scrollBarValue scrollBarMinimum scrollBarMaximum :
  Page -> Orientation -> Z.
Variable fake_key_press : Key -> Page -> Page.

(** The page, and the keys sent to it so far. *)
Record World := { page : Page; keys : list Key }.

(** [getattr(frame, getter_name)] *)
Definition getattr (name : getter_name) : Page -> Orientation -> Z :=
  match name with
  | scrollBarMinimum_name => scrollBarMinimum
  | scrollBarMaximum_name => scrollBarMaximum
  end.

(** [getter is not None and
     frame.scrollBarValue(direction) == getter(direction)]; [getter_name]
    and [direction] are given together ([up], [down], ...) or not at all
    ([top], [bottom]). *)
Definition at_limit (limit : option (getter_name * Orientation))
    (p : Page) : bool :=
  match limit with
  | None => false
  | Some (name, direction) =>
      scrollBarValue p direction =? getattr name p direction
  end.

(** The body of [for _ in range(...)], [n] rounds being left. *)
Fixpoint key_press_loop (n : nat) (key : Key)
    (limit : option (getter_name * Orientation)) (w : World) : World :=
  match n with
  | O => w
  | S n' =>
      if at_limit limit (page w) then w
      else key_press_loop n' key limit
             {| page := fake_key_press key (page w);
                keys := keys w ++ [key] |}
  end.

(** [range(min(count, 5000))] is empty when [count] is not positive. *)
Definition _key_press (key : Key) (count : Z)
    (limit : option (getter_name * Orientation)) (w : World) : World :=
  key_press_loop (Z.to_nat (Z.min count 5000)) key limit w.

Definition up (count : Z) : World -> World :=
  _key_press Key_Up count (Some (scrollBarMinimum_name, Vertical)).

Definition down (count : Z) : World -> World :=
  _key_press Key_Down count (Some (scrollBarMaximum_name, Vertical)).

Definition left (count : Z) : World -> World :=
  _key_press Key_Left count (Some (scrollBarMinimum_name, Horizontal)).

Definition right (count : Z) : World -> World :=
  _key_press Key_Right count (Some (scrollBarMaximum_name, Horizontal)).

Definition top : World -> World := _key_press Key_Home 1 None.

Definition bottom : World -> World := _key_press Key_End 1 None.

Definition page_up (count : Z) : World -> World :=
  _key_press Key_PageUp count (Some (scrollBarMinimum_name, Vertical)).

Definition page_down (count : Z) : World -> World :=
  _key_press Key_PageDown count (Some (scrollBarMaximum_name, Vertical)).

End Scroller.

Arguments page {Page}.
Arguments keys {Page}.

(** A page of 10 lines which an arrow key scrolls by one line, for the
    examples: the page is the line at its top. *)
Definition lines_value : Z -> Orientation -> Z := fun p _ => p.

Definition lines_minimum : Z -> Orientation -> Z := fun _ _ => 0.

Definition lines_maximum : Z -> Orientation -> Z := fun _ _ => 10.

Definition lines_key_press (key : Key) (p : Z) : Z :=
  match key with
  | Key_Up => Z.max 0 (p - 1)
  | Key_Down => Z.min 10 (p + 1)
  | Key_Home => 0
  | Key_End => 10
  | _ => p
  end.

End WebKitScroller.

Module WebKitSearch.

(** A Python [str], by its code points. *)
Definition str := list N.

(** [QWebPage.FindFlag], with Qt's values. *)
Definition FindBackward : Z := 1.

Definition FindCaseSensitively : Z := 2.

Definition FindWrapsAroundDocument : Z := 4.

Definition HighlightAllOccurrences : Z := 8.

(** The members of [browsertab.SearchNavigationResult] the tab uses. *)
Module SearchNavigationResult.

Inductive t := found | wrap_prevented_bottom | wrap_prevented_top.

End SearchNavigationResult.

(** The three callers of [_call_cb], which it tells apart by name. *)
Inductive caller := caller_search | caller_prev_result | caller_next_result.

(** [self.text == text] *)
Definition text_eqb (a : option str) (b : str) : bool :=
  match a with
  | None => false
  | Some a => if list_eq_dec N.eq_dec a b then true else false
  end.

Section Search.

(** The web view with its [findText], the callbacks given to the search, and
    [AbstractSearch._is_case_sensitive], which reads [self.text]. *)
Variable Widget : Type.
Variable findText : Widget -> option str -> Z -> bool * Widget.
Variable Callback : Type.
Variable IgnoreCase : Type.
Variable _is_case_sensitive : option str -> IgnoreCase -> bool.

(** What [_call_cb] passes to the callback: [found] for a search, a
    [SearchNavigationResult] for a movement. *)
Inductive cb_value :=
| of_bool (found : bool)
| of_result (r : SearchNavigationResult.t).

(** What the search does to the outside: calls of [findText], the signals
    [cleared] and [finished], and callbacks handed to [QTimer.singleShot]. *)
Inductive effect :=
| findText_call (text : option str) (flags : Z)
| cleared_emit
| finished_emit (found : bool)
| singleShot (callback : Callback) (v : cb_value).

Record Search := {
  text : option str;
  search_displayed : bool;
  _flags : Z
}.

Record World := {
  self : Search;
  _widget : Widget;
  trace : list effect
}.

(** A method returns, or raises [TypeError] with the state as it was
    then. *)
Inductive result :=
| Ok (w : World)
| TypeError (w : World).

Definition world_of (r : result) : World :=
  match r with
  | Ok w => w
  | TypeError w => w
  end.

Definition set_self (s : Search) (w : World) : World :=
  {| self := s; _widget := _widget w; trace := trace w |}.

Definition with_text (t : option str) (s : Search) : Search :=
  {| text := t; search_displayed := search_displayed s; _flags := _flags s |}.

Definition with_search_displayed (b : bool) (s : Search) : Search :=
  {| text := text s; search_displayed := b; _flags := _flags s |}.

Definition with_flags (f : Z) (s : Search) : Search :=
  {| text := text s; search_displayed := search_displayed s; _flags := f |}.

Definition emit (e : effect) (w : World) : World :=
  {| self := self w; _widget := _widget w; trace := trace w ++ [e] |}.

(** [self._widget.findText(text, flags)] *)
Definition call_findText (t : option str) (flags : Z) (w : World)
    : bool * World :=
  let (found, widget) := findText (_widget w) t flags in
  (found,
   {| self := self w; _widget := widget;
      trace := trace w ++ [findText_call t flags] |}).

Definition _empty_flags : Z := 0.

Definition _args_to_flags (reverse : bool) (ignore_case : IgnoreCase)
    (s : Search) : Z :=
  let flags := _empty_flags in
  let flags :=
    if _is_case_sensitive (text s) ignore_case
    then Z.lor flags FindCaseSensitively else flags in
  let flags := if reverse then Z.lor flags FindBackward else flags in
  flags.

(** [_call_cb] first builds the message for the log, joining the caller,
    the text and the flags with spaces: [str.join] raises [TypeError] when
    the text is [None].  The log itself is not part of the trace. *)
Definition _call_cb (callback : option Callback) (found : bool)
    (t : option str) (flags : Z) (c : caller) (w : World) : result :=
  match t with
  | None => TypeError w
  | Some _ =>
      let w :=
        match callback with
        | None => w
        | Some cb =>
            let v :=
              match c with
              | caller_prev_result | caller_next_result =>
                  if found then of_result SearchNavigationResult.found
                  else if negb (Z.land flags FindBackward =? 0)
                  then of_result SearchNavigationResult.wrap_prevented_top
                  else of_result SearchNavigationResult.wrap_prevented_bottom
              | caller_search => of_bool found
              end in
            emit (singleShot cb v) w
        end in
      Ok (emit (finished_emit found) w)
  end.

Definition clear (w : World) : World :=
  let w := if search_displayed (self w) then emit cleared_emit w else w in
  let w := set_self (with_search_displayed false (self w)) w in
  let w := snd (call_findText (Some []) 0 w) in
  snd (call_findText (Some []) HighlightAllOccurrences w).

Definition search (t : str) (ignore_case : IgnoreCase) (reverse : bool)
    (result_cb : option Callback) (w : World) : result :=
  if text_eqb (text (self w)) t && search_displayed (self w) then
    Ok (set_self
          (with_flags (_args_to_flags reverse ignore_case (self w)) (self w))
          w)
  else
    let w := clear w in
    let w := set_self (with_text (Some t) (self w)) w in
    let w := set_self (with_search_displayed true (self w)) w in
    let w :=
      set_self
        (with_flags (_args_to_flags reverse ignore_case (self w)) (self w))
        w in
    let (found, w) := call_findText (Some t) (_flags (self w)) w in
    let w :=
      snd (call_findText (Some t)
             (Z.lor (_flags (self w)) HighlightAllOccurrences) w) in
    _call_cb result_cb found (Some t) (_flags (self w)) caller_search w.

Definition next_result (wrap : bool) (callback : option Callback)
    (w : World) : result :=
  let w := set_self (with_search_displayed true (self w)) w in
  let flags := _flags (self w) in
  let flags :=
    if wrap then Z.lor flags FindWrapsAroundDocument else flags in
  let (found, w) := call_findText (text (self w)) flags w in
  _call_cb callback found (text (self w)) flags caller_next_result w.

Definition prev_result (wrap : bool) (callback : option Callback)
    (w : World) : result :=
  let w := set_self (with_search_displayed true (self w)) w in
  let flags := _flags (self w) in
  let flags :=
    if negb (Z.land flags FindBackward =? 0)
    then Z.land flags (Z.lnot FindBackward)
    else Z.lor flags FindBackward in
  let flags :=
    if wrap then Z.lor flags FindWrapsAroundDocument else flags in
  let (found, w) := call_findText (text (self w)) flags w in
  _call_cb callback found (text (self w)) flags caller_prev_result w.

(** The flags of the calls of [findText] in a trace, in order. *)
Fixpoint searched (tr : list effect) : list (option str * Z) :=
  match tr with
  | [] => []
  | findText_call t f :: rest => (t, f) :: searched rest
  | _ :: rest => searched rest
  end.

(** The callbacks scheduled in a trace, in order. *)
Fixpoint scheduled (tr : list effect) : list (Callback * cb_value) :=
  match tr with
  | [] => []
  | singleShot cb v :: rest => (cb, v) :: scheduled rest
  | _ :: rest => scheduled rest
  end.

(** The [finished] signals of a trace, in order. *)
Fixpoint finished (tr : list effect) : list bool :=
  match tr with
  | [] => []
  | finished_emit found :: rest => found :: finished rest
  | _ :: rest => finished rest
  end.

End Search.

Arguments findText_call {Callback}.
Arguments cleared_emit {Callback}.
Arguments finished_emit {Callback}.
Arguments singleShot {Callback}.
Arguments Ok {Widget Callback}.
Arguments TypeError {Widget Callback}.
Arguments world_of {Widget Callback}.
Arguments self {Widget Callback}.
Arguments _widget {Widget Callback}.
Arguments trace {Widget Callback}.

(** [flags & QWebPage.FindBackward], as a truth value. *)
Definition backward (flags : Z) : bool :=
  negb (Z.land flags FindBackward =? 0).

(** A page without the text, on which [findText] finds nothing, for the
    examples. *)
Definition finds_nothing : unit -> option str -> Z -> bool * unit :=
  fun _ _ _ => (false, tt).

(** Before any search: no text yet. *)
Definition unsearched : World unit nat :=
  {| self := {| text := None; search_displayed := false; _flags := 0 |};
     _widget := tt;
     trace := [] |}.

(** After a case-sensitive forward search for [q], with callbacks named by
    numbers. *)
Definition searching : World unit nat :=
  {| self := {| text := Some [113%N];
                search_displayed := true;
                _flags := FindCaseSensitively |};
     _widget := tt;
     trace := [] |}.

End WebKitSearch.

(** * Properties *)

Section Properties.

Context {Any : Type}.

Implicit Types (w : World Any) (s : Throttle Any) (a b c p : _CallArgs Any).
Implicit Types (depth : nat) (cbs : list (callback Any)).

(** ** Unfolding the wrapped callable *)

Lemma run_func_nil depth w : run_func depth [] w = Ok w.
Proof. destruct depth; reflexivity. Qed.

Lemma run_func_cons depth cb cbs w :
  run_func depth (cb :: cbs) w =
  bind
    match cb with
    | Reenter a =>
      match depth with
      | O => Raise RecursionError w
      | S d => call_body (run_func d) a w
      end
    | ReSetDelay d => Ok (set_delay d w)
    | ReCancel => Ok (cancel w)
    | Elapse ms => Ok (elapse ms w)
    end
    (run_func depth cbs).
Proof. destruct depth; reflexivity. Qed.

Lemma call_func_passive depth a w :
  passive (self w) -> call_func (run_func depth) a w = Ok (record_call a w).
Proof.
  intros Hp. unfold call_func. rewrite Hp. apply run_func_nil.
Qed.

(** ** What every method preserves *)

Lemma extends_refl w : extends w w.
Proof.
  repeat split; try lia. exists []. now rewrite app_nil_r.
Qed.

Lemma extends_trans w1 w2 w3 : extends w1 w2 -> extends w2 w3 -> extends w1 w3.
Proof.
  intros (Hf1 & Ht1 & m1 & Hc1) (Hf2 & Ht2 & m2 & Hc2).
  repeat split; try congruence; try lia.
  exists (m1 ++ m2). now rewrite Hc2, Hc1, app_assoc.
Qed.

Lemma extends_set_self w s :
  _func s = _func (self w) -> extends w (set_self s w).
Proof.
  intros Hf. repeat split; simpl; auto; try lia.
  exists []. now rewrite app_nil_r.
Qed.

Lemma extends_record_call a w : extends w (record_call a w).
Proof.
  repeat split; simpl; try lia. now exists [(monotonic_ms w, a)].
Qed.

Lemma extends_elapse ms w : extends w (elapse ms w).
Proof.
  repeat split; simpl; try lia. exists []. now rewrite app_nil_r.
Qed.

Lemma extends_bind w (r : result Any) k :
  extends w (world_of r) ->
  (forall w', extends w' (world_of (k w'))) ->
  extends w (world_of (bind r k)).
Proof.
  intros Hr Hk. destruct r as [w'|e w']; simpl in *; auto.
  eapply extends_trans; eauto.
Qed.

Lemma extends_call_body run a w :
  (forall cbs w', extends w' (world_of (run cbs w'))) ->
  extends w (world_of (call_body run a w)).
Proof.
  intros Hrun. unfold call_body, call_func.
  destruct (_pending_call (self w)) as [p|].
  - simpl. now apply extends_set_self.
  - destruct (_last_call_ms (self w)) as [l|].
    + destruct (monotonic_ms w - l >? _delay_ms (self w)).
      * eapply extends_trans; [|apply Hrun].
        eapply extends_trans; [|apply extends_record_call].
        now apply extends_set_self.
      * simpl. now apply extends_set_self.
    + eapply extends_trans; [|apply Hrun].
      eapply extends_trans; [|apply extends_record_call].
      now apply extends_set_self.
Qed.

Lemma extends_run_func depth :
  forall cbs w, extends w (world_of (run_func depth cbs w)).
Proof.
  induction depth as [|d IHd]; induction cbs as [|cb cbs IHcbs]; intros w;
    rewrite ?run_func_nil, ?run_func_cons; simpl; try apply extends_refl;
    (apply extends_bind; [|exact IHcbs]);
    destruct cb; simpl;
    try apply extends_refl;
    try (now apply extends_set_self);
    try apply extends_elapse.
  now apply extends_call_body.
Qed.

Lemma extends_call depth a w : extends w (world_of (__call__ depth a w)).
Proof. apply extends_call_body, extends_run_func. Qed.

Lemma extends_call_pending depth w :
  extends w (world_of (_call_pending depth w)).
Proof.
  unfold _call_pending. destruct (_pending_call (self w)) as [p|].
  - apply extends_bind.
    + unfold call_func. eapply extends_trans; [apply extends_record_call|].
      apply extends_run_func.
    + intros w'. simpl. now apply extends_set_self.
  - apply extends_refl.
Qed.

Lemma extends_emit n slot :
  (forall w, extends w (world_of (slot w))) ->
  forall w, extends w (world_of (emit n slot w)).
Proof.
  intros Hs. induction n as [|n IH]; intros w; simpl.
  - apply extends_refl.
  - apply extends_bind; auto.
Qed.

Lemma extends_handle depth e w : extends w (world_of (handle depth e w)).
Proof.
  destruct e; simpl.
  - apply extends_call.
  - now apply extends_set_self.
  - now apply extends_set_self.
  - unfold timeout. eapply extends_trans; [|apply extends_emit].
    + now apply extends_set_self.
    + apply extends_call_pending.
Qed.

(** ** The three ways through [__call__] *)

Lemma rearmed msec now (t : Timer) :
  start now
    (connect
       match disconnect (setInterval msec now t) with
       | Some t' => t'
       | None => setInterval msec now t
       end) =
  {| interval := msec; receivers := 1; deadline := Some (now + msec) |}.
Proof.
  unfold disconnect, connect, start, setInterval; cbn.
  destruct (receivers t) eqn:E; cbn; now rewrite ?E.
Qed.

Lemma call_updates_pending depth a p w :
  _pending_call (self w) = Some p ->
  __call__ depth a w = Ok (set_self (with_pending_call (Some a) (self w)) w).
Proof.
  intros Hp. unfold __call__, call_body. now rewrite Hp.
Qed.

Lemma call_right_now depth a w :
  _pending_call (self w) = None ->
  (forall last, _last_call_ms (self w) = Some last ->
                _delay_ms (self w) < monotonic_ms w - last) ->
  __call__ depth a w =
  call_func (run_func depth) a
    (set_self (with_last_call_ms (Some (monotonic_ms w)) (self w)) w).
Proof.
  intros Hp Hl. unfold __call__, call_body. rewrite Hp.
  destruct (_last_call_ms (self w)) as [l|]; [|reflexivity].
  specialize (Hl l eq_refl).
  destruct (monotonic_ms w - l >? _delay_ms (self w)) eqn:Hgt; [reflexivity|].
  rewrite Z.gtb_ltb in Hgt. apply Z.ltb_ge in Hgt. lia.
Qed.

Lemma call_deferred depth a w last :
  _pending_call (self w) = None ->
  _last_call_ms (self w) = Some last ->
  monotonic_ms w - last <= _delay_ms (self w) ->
  __call__ depth a w =
  Ok (set_self
        (with_pending_call (Some a)
           (with_timer
              {| interval := _delay_ms (self w) - (monotonic_ms w - last);
                 receivers := 1;
                 deadline := Some (monotonic_ms w +
                                   (_delay_ms (self w) - (monotonic_ms w - last))) |}
              (self w)))
        w).
Proof.
  intros Hp Hl Hle. unfold __call__, call_body. rewrite Hp, Hl.
  destruct (monotonic_ms w - last >? _delay_ms (self w)) eqn:Hgt.
  - rewrite Z.gtb_ltb in Hgt. apply Z.ltb_lt in Hgt. lia.
  - cbv zeta. now rewrite rearmed.
Qed.

(** ** The leading edge *)

(** Once a call has been made, [_last_call_ms] is never reset and never
    goes back, whatever the callable does. *)
Lemma called_since_call_body run t0 a w :
  (forall cbs w', called_since t0 w' -> called_since t0 (world_of (run cbs w'))) ->
  called_since t0 w -> called_since t0 (world_of (call_body run a w)).
Proof.
  intros Hrun (Ht & l & Hl & Hle).
  assert (Hnow : called_since t0
            (record_call a
               (set_self (with_last_call_ms (Some (monotonic_ms w)) (self w)) w))).
  { split; simpl; [exact Ht|]. exists (monotonic_ms w). now split. }
  unfold call_body, call_func.
  destruct (_pending_call (self w)) as [p|].
  - simpl. split; [exact Ht|]. now exists l.
  - rewrite Hl.
    destruct (monotonic_ms w - l >? _delay_ms (self w)).
    + now apply Hrun.
    + simpl. split; [exact Ht|]. now exists l.
Qed.

Lemma called_since_run_func t0 depth :
  forall cbs w,
    called_since t0 w -> called_since t0 (world_of (run_func depth cbs w)).
Proof.
  induction depth as [|d IHd]; induction cbs as [|cb cbs IHcbs]; intros w Hw;
    rewrite ?run_func_nil, ?run_func_cons; simpl; auto;
    destruct cb; simpl; auto;
    try (apply IHcbs; destruct Hw as (Ht & l & Hl & Hle);
         split; simpl; [lia | now exists l]).
  pose proof (called_since_call_body (run_func d) t0 a w IHd Hw) as H.
  destruct (call_body (run_func d) a w) as [w1|e w1]; simpl in *; auto.
Qed.

(** C5: for a freshly constructed throttle the first call enters the wrapped
    callable at once, with the call's arguments and with [_last_call_ms]
    already set to the time of the call; the outcome of the call is the
    outcome of the callable, whose call is the first one recorded.  Whatever
    the callable does, [_last_call_ms] is set afterwards, to the time of the
    call or, when the callable made the throttle call it again, to a later
    one.  When the callable leaves the throttle alone, taking [ms]
    milliseconds, the call returns with [_last_call_ms] equal to the time of
    the call, nothing pending, the timer not armed and that one call
    recorded. *)
Theorem first_call_is_immediate depth func delay_ms t0 log a :
  __call__ depth a (fresh func delay_ms t0 log) =
    run_func depth (func a)
      {| self := {| _delay_ms := delay_ms; _func := func;
                    _pending_call := None;
                    _last_call_ms := Some t0;
                    _timer := {| interval := 0; receivers := O;
                                 deadline := None |} |};
         monotonic_ms := t0;
         calls := log ++ [(t0, a)] |}
  /\ (exists more,
        calls (world_of (__call__ depth a (fresh func delay_ms t0 log))) =
        log ++ (t0, a) :: more)
  /\ (exists l,
        _last_call_ms
          (self (world_of (__call__ depth a (fresh func delay_ms t0 log)))) =
        Some l /\ t0 <= l)
  /\ __call__ depth a (fresh (fun _ => []) delay_ms t0 log) =
       Ok {| self := {| _delay_ms := delay_ms; _func := fun _ => [];
                        _pending_call := None;
                        _last_call_ms := Some t0;
                        _timer := {| interval := 0; receivers := O;
                                     deadline := None |} |};
             monotonic_ms := t0;
             calls := log ++ [(t0, a)] |}
  /\ (forall ms, exists w',
        __call__ depth a (fresh (fun _ => [Elapse ms]) delay_ms t0 log) = Ok w' /\
        _last_call_ms (self w') = Some t0 /\
        _pending_call (self w') = None /\
        deadline (_timer (self w')) = None /\
        calls w' = log ++ [(t0, a)] /\
        monotonic_ms w' = t0 + Z.of_N ms).
Proof.
  split; [reflexivity|]. split; [|split; [|split]].
  - change (__call__ depth a (fresh func delay_ms t0 log)) with
      (run_func depth (func a)
         (record_call a (set_self (with_last_call_ms (Some t0) (__init__ func delay_ms))
                                  (fresh func delay_ms t0 log)))).
    destruct (extends_run_func depth (func a)
                (record_call a (set_self (with_last_call_ms (Some t0) (__init__ func delay_ms))
                                         (fresh func delay_ms t0 log))))
      as (_ & _ & more & Hc).
    exists more. rewrite Hc. simpl. now rewrite <- app_assoc.
  - change (__call__ depth a (fresh func delay_ms t0 log)) with
      (run_func depth (func a)
         (record_call a (set_self (with_last_call_ms (Some t0) (__init__ func delay_ms))
                                  (fresh func delay_ms t0 log)))).
    apply (called_since_run_func t0 depth). split; simpl; [lia|].
    exists t0. split; [reflexivity|lia].
  - unfold __call__, call_body; simpl. unfold call_func; simpl.
    now rewrite run_func_nil.
  - intros ms. unfold __call__, call_body; simpl. unfold call_func; simpl.
    rewrite run_func_cons. cbn [bind]. rewrite run_func_nil.
    eexists. split; [reflexivity|]. simpl. now repeat split.
Qed.

(** ** [set_delay] *)

(** C7: [set_delay] stores the new delay and changes nothing else: the
    pending call, the time of the last call, the timer (its interval, its
    connection and its deadline), the callable, the clock and the recorded
    calls are as before, so an armed timer is due exactly when it was. *)
Theorem set_delay_changes_only_the_delay d w :
  _delay_ms (self (set_delay d w)) = d /\
  _pending_call (self (set_delay d w)) = _pending_call (self w) /\
  _last_call_ms (self (set_delay d w)) = _last_call_ms (self w) /\
  _timer (self (set_delay d w)) = _timer (self w) /\
  _func (self (set_delay d w)) = _func (self w) /\
  monotonic_ms (set_delay d w) = monotonic_ms w /\
  calls (set_delay d w) = calls w /\
  (forall t, enabled t TimerFires (set_delay d w) = enabled t TimerFires w).
Proof. repeat split. Qed.

(** ** The interval of the timer *)

(** C9: when a call is deferred (nothing pending, and the time since the
    last call does not exceed the delay), the timer is armed with the
    interval [_delay_ms - (cur_time_ms - _last_call_ms)], which is not
    negative, so its deadline is not in the past; the callable is not
    called. *)
Theorem deferred_interval_nonneg depth a w last :
  _pending_call (self w) = None ->
  _last_call_ms (self w) = Some last ->
  monotonic_ms w - last <= _delay_ms (self w) ->
  exists w',
    __call__ depth a w = Ok w' /\
    interval (_timer (self w')) = _delay_ms (self w) - (monotonic_ms w - last) /\
    0 <= interval (_timer (self w')) /\
    deadline (_timer (self w')) = Some (monotonic_ms w + interval (_timer (self w'))) /\
    monotonic_ms w' = monotonic_ms w /\
    _pending_call (self w') = Some a /\
    calls w' = calls w.
Proof.
  intros Hp Hl Hle. rewrite (call_deferred depth a w last Hp Hl Hle).
  eexists. split; [reflexivity|]. simpl. repeat split; lia.
Qed.

(** The interval of the timer is set nowhere else, so it is never negative,
    whatever the callable does from inside a call. *)
Lemma interval_nonneg_call_body run a w :
  (forall cbs w', 0 <= interval (_timer (self w')) ->
                  0 <= interval (_timer (self (world_of (run cbs w'))))) ->
  0 <= interval (_timer (self w)) ->
  0 <= interval (_timer (self (world_of (call_body run a w)))).
Proof.
  intros Hrun Hw. unfold call_body, call_func.
  destruct (_pending_call (self w)) as [p|]; [exact Hw|].
  destruct (_last_call_ms (self w)) as [l|]; [|now apply Hrun].
  destruct (monotonic_ms w - l >? _delay_ms (self w)) eqn:Hgt; [now apply Hrun|].
  cbv zeta. rewrite rearmed. simpl.
  rewrite Z.gtb_ltb in Hgt. apply Z.ltb_ge in Hgt. lia.
Qed.

Lemma interval_nonneg_run_func depth :
  forall cbs w,
    0 <= interval (_timer (self w)) ->
    0 <= interval (_timer (self (world_of (run_func depth cbs w)))).
Proof.
  induction depth as [|d IHd].
  - induction cbs as [|cb cbs IHcbs]; intros w Hw;
      rewrite ?run_func_nil, ?run_func_cons; [exact Hw|].
    destruct cb; simpl; try (apply IHcbs; exact Hw). exact Hw.
  - induction cbs as [|cb cbs IHcbs]; intros w Hw;
      rewrite ?run_func_nil, ?run_func_cons; [exact Hw|].
    destruct cb; simpl; try (apply IHcbs; exact Hw).
    pose proof (interval_nonneg_call_body (run_func d) a w IHd Hw) as Hc.
    destruct (call_body (run_func d) a w) as [w'|e w']; simpl in *; auto.
Qed.

Lemma interval_nonneg_call depth a w :
  0 <= interval (_timer (self w)) ->
  0 <= interval (_timer (self (world_of (__call__ depth a w)))).
Proof.
  apply interval_nonneg_call_body. apply interval_nonneg_run_func.
Qed.

(** ** The deferred call without a pending call *)

(** C3, as the code has it: with no pending call, [_call_pending] fails its
    assertion; the callable is not called and the state is as it was. *)
Theorem call_pending_asserts_pending depth w :
  _pending_call (self w) = None ->
  _call_pending depth w = Raise AssertionError w.
Proof.
  intros Hp. unfold _call_pending. now rewrite Hp.
Qed.

(** ** The delay -1 *)

(** C6, as the code has it: with the delay -1 and a clock that has not gone
    back behind the last call, a call that finds nothing pending enters the
    wrapped callable at once, whatever the time. *)
Theorem disabled_calls_right_now depth a w :
  _delay_ms (self w) = -1 ->
  _pending_call (self w) = None ->
  (forall last, _last_call_ms (self w) = Some last -> last <= monotonic_ms w) ->
  __call__ depth a w =
    call_func (run_func depth) a
      (set_self (with_last_call_ms (Some (monotonic_ms w)) (self w)) w)
  /\ exists more,
       calls (world_of (__call__ depth a w)) = calls w ++ (monotonic_ms w, a) :: more.
Proof.
  intros Hd Hp Hl.
  assert (E : __call__ depth a w =
              call_func (run_func depth) a
                (set_self (with_last_call_ms (Some (monotonic_ms w)) (self w)) w)).
  { apply call_right_now; auto. intros l Hl'. specialize (Hl l Hl'). lia. }
  split; [exact E|]. rewrite E. unfold call_func.
  match goal with |- context [run_func depth ?cbs ?w0] =>
    destruct (extends_run_func depth cbs w0) as (_ & _ & more & Hc) end.
  exists more. rewrite Hc. simpl. now rewrite <- app_assoc.
Qed.

(** ** Schedules *)

Lemma run_cons depth t e evs w w1 :
  enabled t e w = true ->
  handle depth e (at_time t w) = Ok w1 ->
  run depth ((t, e) :: evs) w = run depth evs w1.
Proof.
  intros He Hh. simpl. now rewrite He, Hh.
Qed.

Lemma enabled_call t a w : monotonic_ms w <= t -> enabled t (Call a) w = true.
Proof.
  intros Ht. unfold enabled. rewrite andb_true_r. now apply Z.leb_le.
Qed.

Lemma enabled_timer t d w :
  monotonic_ms w <= t -> deadline (_timer (self w)) = Some d -> d <= t ->
  enabled t TimerFires w = true.
Proof.
  intros Ht Hd Hdt. unfold enabled. rewrite Hd.
  apply andb_true_iff. split; now apply Z.leb_le.
Qed.

Lemma not_enabled_timer_early t d w :
  deadline (_timer (self w)) = Some d -> t < d ->
  enabled t TimerFires w = false.
Proof.
  intros Hd Hdt. unfold enabled. rewrite Hd.
  apply andb_false_iff. right. now apply Z.leb_gt.
Qed.

Lemma not_enabled_timer_disarmed t w :
  deadline (_timer (self w)) = None -> enabled t TimerFires w = false.
Proof.
  intros Hd. unfold enabled. rewrite Hd. apply andb_false_r.
Qed.

(** ** After [cancel] with a call pending *)

Lemma last_cons {A : Type} (l : list A) :
  forall x d, last (x :: l) d = last l x.
Proof.
  induction l as [|y l IH]; intros x d; [reflexivity|].
  change (last (x :: y :: l) d) with (last (y :: l) d).
  now rewrite (IH y d), (IH y x).
Qed.

Lemma pending_run_requests depth reqs :
  forall w p,
    _pending_call (self w) = Some p ->
    in_order (monotonic_ms w) (map fst reqs) = true ->
    run depth (requests reqs) w =
    Finished
      {| self := with_pending_call (Some (last (map snd reqs) p)) (self w);
         monotonic_ms := last (map fst reqs) (monotonic_ms w);
         calls := calls w |}.
Proof.
  induction reqs as [|[t a] reqs IH]; intros w p Hp Ho.
  - simpl. f_equal. destruct w as [[d f pc l tm] now log]. simpl in *.
    now subst.
  - simpl in Ho. apply andb_true_iff in Ho. destruct Ho as [Ht Ho].
    apply Z.leb_le in Ht.
    change (requests ((t, a) :: reqs)) with ((t, Call a) :: requests reqs).
    rewrite (run_cons depth t (Call a) (requests reqs) w
               (set_self (with_pending_call (Some a) (self (at_time t w))) (at_time t w))).
    + rewrite (IH _ a); [|reflexivity|exact Ho].
      cbn [map fst snd]. now rewrite !last_cons.
    + now apply enabled_call.
    + exact (call_updates_pending depth a p (at_time t w) Hp).
Qed.

(** C10: when [cancel] runs while a call is pending, every later call of the
    throttle only replaces the pending arguments: whatever the calls and
    their times, the schedule runs to its end with no call of the wrapped
    callable recorded, the timer disarmed as [cancel] left it, the time of
    the last call unchanged, and the arguments of the latest call pending. *)
Theorem cancel_with_pending_blocks_later_calls depth w p reqs :
  _pending_call (self w) = Some p ->
  in_order (monotonic_ms w) (map fst reqs) = true ->
  exists w',
    run depth (requests reqs) (cancel w) = Finished w' /\
    calls w' = calls w /\
    _timer (self w') = stop (_timer (self w)) /\
    deadline (_timer (self w')) = None /\
    _last_call_ms (self w') = _last_call_ms (self w) /\
    _pending_call (self w') = Some (last (map snd reqs) p).
Proof.
  intros Hp Ho.
  rewrite (pending_run_requests depth reqs (cancel w) p Hp Ho).
  eexists. split; [reflexivity|]. repeat split.
Qed.

(** ** The suppression window *)

Lemma in_window_intro C t0 log w later :
  passive (self w) ->
  _delay_ms (self w) = C ->
  (forall d, deadline (_timer (self w)) = Some d ->
             receivers (_timer (self w)) = 1%nat /\ _pending_call (self w) <> None) ->
  calls w = log ++ later ->
  Forall (fun tc => t0 + C <= fst tc) later ->
  (monotonic_ms w < t0 + C -> _last_call_ms (self w) = Some t0) ->
  (monotonic_ms w < t0 + C ->
   forall d, deadline (_timer (self w)) = Some d -> t0 + C <= d) ->
  in_window C t0 log w.
Proof.
  intros H1 H2 H3 H4 H5 H6 H7. unfold in_window.
  split; [exact H1|]. split; [exact H2|]. split; [exact H3|].
  split; [exists later; split; assumption|].
  intros Hlt. split; [now apply H6|now apply H7].
Qed.

Lemma in_window_disarmed C t0 log w :
  in_window C t0 log w -> _pending_call (self w) = None ->
  deadline (_timer (self w)) = None.
Proof.
  intros (_ & _ & Harm & _) Hp.
  destruct (deadline (_timer (self w))) as [d|] eqn:Hdl; [|reflexivity].
  destruct (Harm d eq_refl) as [_ Hne]. now elim Hne.
Qed.

Lemma in_window_right_now C t0 log t b w :
  in_window C t0 log w -> monotonic_ms w <= t ->
  _pending_call (self w) = None ->
  (forall l, _last_call_ms (self w) = Some l -> C < t - l) ->
  in_window C t0 log
    (record_call b
       (set_self (with_last_call_ms (Some t) (self (at_time t w))) (at_time t w))).
Proof.
  intros Hin Ht Hp Hl.
  pose proof (in_window_disarmed C t0 log w Hin Hp) as Hdis.
  destruct Hin as (Hpas & Hd & Harm & (later & Hc & Hlater) & Hwin).
  assert (Hlate : t0 + C <= t).
  { destruct (Z_lt_le_dec t (t0 + C)) as [Hlt|]; [|assumption].
    destruct Hwin as [Hl0 _]; [lia|]. specialize (Hl t0 Hl0). lia. }
  apply (in_window_intro C t0 log _ (later ++ [(t, b)])); simpl.
  - exact Hpas.
  - exact Hd.
  - intros d Hdl. rewrite Hdis in Hdl. discriminate.
  - now rewrite Hc, app_assoc.
  - apply Forall_app. split; [assumption|]. constructor; simpl; auto.
  - lia.
  - lia.
Qed.

Lemma in_window_call depth C t0 log t b w :
  in_window C t0 log w -> monotonic_ms w <= t ->
  exists w', __call__ depth b (at_time t w) = Ok w' /\ in_window C t0 log w'.
Proof.
  intros Hin Ht.
  destruct (_pending_call (self w)) as [p|] eqn:Hp.
  - (* a call is pending: its arguments are replaced *)
    destruct Hin as (Hpas & Hd & Harm & (later & Hc & Hlater) & Hwin).
    rewrite (call_updates_pending depth b p (at_time t w) Hp).
    eexists. split; [reflexivity|].
    apply (in_window_intro C t0 log _ later); simpl;
      [exact Hpas|exact Hd| |exact Hc|exact Hlater| | ].
    + intros d Hdl. split; [apply (Harm d Hdl)|discriminate].
    + intros Hlt. apply Hwin. lia.
    + intros Hlt. apply Hwin. lia.
  - destruct (_last_call_ms (self w)) as [l|] eqn:Hl.
    + destruct (Z_lt_le_dec C (t - l)) as [Hgt|Hle].
      * (* the delay has passed: called right now *)
        rewrite (call_right_now depth b (at_time t w) Hp).
        2:{ simpl. intros l' Hl'. rewrite Hl in Hl'. injection Hl' as <-.
            destruct Hin as (_ & -> & _). lia. }
        rewrite call_func_passive by apply Hin.
        eexists. split; [reflexivity|].
        apply in_window_right_now; auto.
        intros l' Hl'. rewrite Hl in Hl'. injection Hl' as <-. lia.
      * (* too soon: deferred *)
        destruct Hin as (Hpas & Hd & Harm & (later & Hc & Hlater) & Hwin).
        rewrite (call_deferred depth b (at_time t w) l Hp Hl).
        2:{ simpl. lia. }
        eexists. split; [reflexivity|].
        apply (in_window_intro C t0 log _ later); simpl;
          [exact Hpas|exact Hd| |exact Hc|exact Hlater| | ].
        -- intros d Hdl. split; [reflexivity|discriminate].
        -- intros Hlt. apply Hwin. lia.
        -- intros Hlt d Hdl. injection Hdl as <-.
           destruct Hwin as [Hl0 _]; [lia|]. rewrite Hl in Hl0.
           injection Hl0 as ->. lia.
    + (* never called before: called right now *)
      rewrite (call_right_now depth b (at_time t w) Hp).
      2:{ simpl. intros l' Hl'. rewrite Hl in Hl'. discriminate. }
      rewrite call_func_passive by apply Hin.
      eexists. split; [reflexivity|].
      apply in_window_right_now; auto.
      intros l' Hl'. rewrite Hl in Hl'. discriminate.
Qed.

Lemma call_pending_passive depth p w :
  passive (self w) -> _pending_call (self w) = Some p ->
  _call_pending depth w =
  Ok (set_self
        (with_last_call_ms (Some (monotonic_ms w))
           (with_pending_call None (self w)))
        (record_call p w)).
Proof.
  intros Hpas Hp. unfold _call_pending. rewrite Hp.
  now rewrite call_func_passive.
Qed.

Lemma timeout_passive depth p w :
  passive (self w) -> receivers (_timer (self w)) = 1%nat ->
  _pending_call (self w) = Some p ->
  timeout depth w =
  Ok (set_self
        (with_last_call_ms (Some (monotonic_ms w))
           (with_pending_call None (self (expire w))))
        (record_call p (expire w))).
Proof.
  intros Hpas Hr Hp. unfold timeout. rewrite Hr. cbn [emit].
  now rewrite (call_pending_passive depth p (expire w) Hpas Hp).
Qed.

Lemma enabled_timer_inv t w :
  enabled t TimerFires w = true ->
  monotonic_ms w <= t /\
  exists d, deadline (_timer (self w)) = Some d /\ d <= t.
Proof.
  unfold enabled. intros He. apply andb_true_iff in He. destruct He as [H1 H2].
  apply Z.leb_le in H1. split; [exact H1|].
  destruct (deadline (_timer (self w))) as [d|]; [|discriminate].
  exists d. split; [reflexivity|]. now apply Z.leb_le.
Qed.

Lemma enabled_clock t e w : enabled t e w = true -> monotonic_ms w <= t.
Proof.
  unfold enabled. intros He. apply andb_true_iff in He.
  now apply Z.leb_le.
Qed.

Lemma in_window_cancel C t0 log t w :
  in_window C t0 log w -> monotonic_ms w <= t ->
  in_window C t0 log (cancel (at_time t w)).
Proof.
  intros (Hpas & Hd & Harm & (later & Hc & Hlater) & Hwin) Ht.
  apply (in_window_intro C t0 log _ later); simpl;
    [exact Hpas|exact Hd| |exact Hc|exact Hlater| | ].
  - discriminate.
  - intros Hlt. apply Hwin. lia.
  - discriminate.
Qed.

Lemma in_window_timer depth C t0 log t w :
  in_window C t0 log w -> enabled t TimerFires w = true ->
  exists w', timeout depth (at_time t w) = Ok w' /\ in_window C t0 log w'.
Proof.
  intros (Hpas & Hd & Harm & (later & Hc & Hlater) & Hwin) He.
  destruct (enabled_timer_inv t w He) as (Ht & d & Hdl & Hdt).
  destruct (Harm d Hdl) as [Hr Hne].
  destruct (_pending_call (self w)) as [p|] eqn:Hp; [|now elim Hne].
  rewrite (timeout_passive depth p (at_time t w) Hpas Hr Hp).
  eexists. split; [reflexivity|].
  assert (Hlate : t0 + C <= t).
  { destruct (Z_lt_le_dec t (t0 + C)) as [Hlt|]; [|assumption].
    destruct Hwin as [_ Hdue]; [lia|]. specialize (Hdue d Hdl). lia. }
  apply (in_window_intro C t0 log _ (later ++ [(t, p)])); simpl.
  - exact Hpas.
  - exact Hd.
  - discriminate.
  - now rewrite Hc, app_assoc.
  - apply Forall_app. split; [assumption|]. constructor; simpl; auto.
  - lia.
  - lia.
Qed.

Lemma in_window_handle depth C t0 log t e w :
  in_window C t0 log w -> enabled t e w = true -> keeps_delay e = true ->
  exists w', handle depth e (at_time t w) = Ok w' /\ in_window C t0 log w'.
Proof.
  intros Hin He Hk. pose proof (enabled_clock t e w He) as Ht.
  destruct e as [b|d| |]; simpl.
  - now apply in_window_call.
  - discriminate.
  - eexists. split; [reflexivity|]. now apply in_window_cancel.
  - now apply in_window_timer.
Qed.

Lemma in_window_run depth C t0 log evs :
  forall w,
    in_window C t0 log w ->
    forallb (fun te => keeps_delay (snd te)) evs = true ->
    run depth evs w = Impossible \/
    exists w', run depth evs w = Finished w' /\ in_window C t0 log w'.
Proof.
  induction evs as [|[t e] evs IH]; intros w Hin Hk.
  - right. exists w. split; [reflexivity|exact Hin].
  - simpl in Hk. apply andb_true_iff in Hk. destruct Hk as [Hk Hks].
    cbn [run]. destruct (enabled t e w) eqn:He; [|now left].
    destruct (in_window_handle depth C t0 log t e w Hin He Hk) as (w1 & Hh & Hin1).
    rewrite Hh. now apply IH.
Qed.

Lemma in_window_after_first_call C t0 a w :
  _delay_ms (self w) = C -> passive (self w) ->
  deadline (_timer (self w)) = None ->
  in_window C t0 (calls w ++ [(t0, a)])
    (record_call a
       (set_self (with_last_call_ms (Some t0) (self (at_time t0 w))) (at_time t0 w))).
Proof.
  intros Hd Hpas Hdis.
  apply (in_window_intro C t0 _ _ []); simpl.
  - exact Hpas.
  - exact Hd.
  - intros d Hdl. rewrite Hdis in Hdl. discriminate.
  - now rewrite app_nil_r.
  - constructor.
  - reflexivity.
  - intros _ d Hdl. rewrite Hdis in Hdl. discriminate.
Qed.

(** C2: a throttle with delay [C] whose callable leaves it alone makes a
    call right away at time [t0].  Then a call arriving at a time [t] with
    [0 < t - t0 < C] is not made right away: it returns with nothing new
    recorded, its arguments pending and the timer due at [t0 + C].  And
    whatever is scheduled next (calls, [cancel], the timer firing; the delay
    is left alone), the schedule does not crash and every call of the
    callable recorded after the one at [t0] is at [t0 + C] or later. *)
Theorem suppression_window depth w C t0 a :
  _delay_ms (self w) = C ->
  passive (self w) ->
  _pending_call (self w) = None ->
  deadline (_timer (self w)) = None ->
  (forall last, _last_call_ms (self w) = Some last -> C < t0 - last) ->
  monotonic_ms w <= t0 ->
  exists w1,
    __call__ depth a (at_time t0 w) = Ok w1 /\
    calls w1 = calls w ++ [(t0, a)] /\
    (forall t b, 0 < t - t0 < C ->
       exists w2,
         __call__ depth b (at_time t w1) = Ok w2 /\
         calls w2 = calls w1 /\
         _pending_call (self w2) = Some b /\
         deadline (_timer (self w2)) = Some (t0 + C)) /\
    (forall evs,
       forallb (fun te => keeps_delay (snd te)) evs = true ->
       run depth ((t0, Call a) :: evs) w = Impossible \/
       exists w' later,
         run depth ((t0, Call a) :: evs) w = Finished w' /\
         calls w' = calls w ++ (t0, a) :: later /\
         Forall (fun tc => t0 + C <= fst tc) later).
Proof.
  intros Hd Hpas Hp Hdis Hl Ht0.
  assert (H1 : __call__ depth a (at_time t0 w) =
               Ok (record_call a
                     (set_self (with_last_call_ms (Some t0) (self (at_time t0 w)))
                               (at_time t0 w)))).
  { rewrite (call_right_now depth a (at_time t0 w) Hp).
    - now apply call_func_passive.
    - simpl. rewrite Hd. exact Hl. }
  eexists. split; [exact H1|]. split; [reflexivity|]. split.
  - intros t b Hin.
    match goal with |- context [at_time t ?w1] =>
      rewrite (call_deferred depth b (at_time t w1) t0 Hp eq_refl) end.
    + eexists. split; [reflexivity|]. simpl.
      repeat split. f_equal. lia.
    + simpl. lia.
  - intros evs Hk.
    rewrite (run_cons depth t0 (Call a) evs w _ (enabled_call t0 a w Ht0) H1).
    destruct (in_window_run depth C t0 (calls w ++ [(t0, a)]) evs _
                (in_window_after_first_call C t0 a w Hd Hpas Hdis) Hk)
      as [Himp|(w' & Hrun & Hin)].
    + now left.
    + right. destruct Hin as (_ & _ & _ & (later & Hc & Hlater) & _).
      exists w', later. split; [exact Hrun|]. split; [|exact Hlater].
      now rewrite Hc, <- app_assoc.
Qed.

(** ** Coalescing *)

(** C1: a throttle with delay [C] whose callable leaves it alone makes a
    call with [a] right away at [t0]; calls with [b] and then [c] arrive
    inside the window ([t0 < t1 <= t2 < t0 + C], so [C > 0]).  When the timer
    then fires, at [t3], the schedule ends with exactly two calls of the
    callable recorded: [a] at [t0] and [c] at [t3]; nothing is pending and
    the timer is disarmed, so it cannot fire a second time.  The timer cannot
    fire before [t0 + C]. *)
Theorem coalescing depth w C t0 t1 t2 t3 a b c :
  _delay_ms (self w) = C ->
  passive (self w) ->
  _pending_call (self w) = None ->
  (forall last, _last_call_ms (self w) = Some last -> C < t0 - last) ->
  monotonic_ms w <= t0 -> t0 < t1 -> t1 <= t2 -> t2 < t0 + C -> t0 + C <= t3 ->
  (exists w',
     run depth [(t0, Call a); (t1, Call b); (t2, Call c); (t3, TimerFires)] w =
       Finished w' /\
     calls w' = calls w ++ [(t0, a); (t3, c)] /\
     _pending_call (self w') = None /\
     _last_call_ms (self w') = Some t3 /\
     (forall t, enabled t TimerFires w' = false)) /\
  (forall t, t < t0 + C ->
     run depth [(t0, Call a); (t1, Call b); (t2, Call c); (t, TimerFires)] w =
       Impossible).
Proof.
  intros Hd Hpas Hp Hl Ht0 Ht1 Ht2 Ht2C Ht3.
  set (w1 := record_call a
               (set_self (with_last_call_ms (Some t0) (self (at_time t0 w)))
                         (at_time t0 w))).
  assert (H1 : handle depth (Call a) (at_time t0 w) = Ok w1).
  { simpl. rewrite (call_right_now depth a (at_time t0 w) Hp).
    - now apply call_func_passive.
    - simpl. rewrite Hd. exact Hl. }
  assert (Hle : monotonic_ms (at_time t1 w1) - t0 <= _delay_ms (self (at_time t1 w1))).
  { simpl. lia. }
  pose proof (call_deferred depth b (at_time t1 w1) t0 Hp eq_refl Hle) as H2.
  match type of H2 with _ = Ok ?x => set (w2 := x) in H2 end.
  pose proof (call_updates_pending depth c b (at_time t2 w2) eq_refl) as H3.
  match type of H3 with _ = Ok ?x => set (w3 := x) in H3 end.
  assert (Hdl : deadline (_timer (self w3)) = Some (t0 + C)).
  { simpl. f_equal. lia. }
  assert (E3 : forall evs,
             run depth ((t0, Call a) :: (t1, Call b) :: (t2, Call c) :: evs) w =
             run depth evs w3).
  { intros evs.
    rewrite (run_cons depth t0 (Call a) _ w w1 (enabled_call t0 a w Ht0) H1).
    rewrite (run_cons depth t1 (Call b) _ w1 w2); [| apply enabled_call; simpl; lia | exact H2].
    rewrite (run_cons depth t2 (Call c) _ w2 w3); [| apply enabled_call; simpl; lia | exact H3].
    reflexivity. }
  split.
  - rewrite E3.
    pose proof (timeout_passive depth c (at_time t3 w3) Hpas eq_refl eq_refl) as H4.
    match type of H4 with _ = Ok ?x => set (w4 := x) in H4 end.
    rewrite (run_cons depth t3 TimerFires [] w3 w4); [| | exact H4].
    + exists w4. split; [reflexivity|]. split.
      * simpl. now rewrite <- app_assoc.
      * repeat split. intros t. now apply not_enabled_timer_disarmed.
    + apply (enabled_timer t3 (t0 + C) w3); [simpl; lia|exact Hdl|exact Ht3].
  - intros t Ht. rewrite E3. cbn [run].
    now rewrite (not_enabled_timer_early t (t0 + C) w3 Hdl Ht).
Qed.

(** ** [cancel] *)

(** [cancel] stops the timer and touches nothing else; [_pending_call] in
    particular is as it was. *)
Lemma cancel_frame w :
  deadline (_timer (self (cancel w))) = None /\
  _pending_call (self (cancel w)) = _pending_call (self w) /\
  _last_call_ms (self (cancel w)) = _last_call_ms (self w) /\
  _delay_ms (self (cancel w)) = _delay_ms (self w) /\
  calls (cancel w) = calls w.
Proof. repeat split. Qed.

Lemma cancel_idempotent w : cancel (cancel w) = cancel w.
Proof. reflexivity. Qed.

Lemma cancel_disarmed w : deadline (_timer (self w)) = None -> cancel w = w.
Proof.
  destruct w as [[d f pc l [i r dl]] now log]. simpl. intros ->. reflexivity.
Qed.

(** ** A throttle whose delay is -1 from the start *)

Lemma disabled_run depth reqs :
  forall w,
    passive (self w) ->
    _delay_ms (self w) = -1 ->
    _pending_call (self w) = None ->
    (forall last, _last_call_ms (self w) = Some last -> last <= monotonic_ms w) ->
    in_order (monotonic_ms w) (map fst reqs) = true ->
    exists w',
      run depth (requests reqs) w = Finished w' /\
      calls w' = calls w ++ reqs /\
      _pending_call (self w') = None /\
      _timer (self w') = _timer (self w).
Proof.
  induction reqs as [|[t a] reqs IH]; intros w Hpas Hd Hp Hl Ho.
  - exists w. split; [reflexivity|]. rewrite app_nil_r. auto.
  - simpl in Ho. apply andb_true_iff in Ho. destruct Ho as [Ht Ho].
    apply Z.leb_le in Ht.
    change (requests ((t, a) :: reqs)) with ((t, Call a) :: requests reqs).
    rewrite (run_cons depth t (Call a) (requests reqs) w
               (record_call a
                  (set_self (with_last_call_ms (Some t) (self (at_time t w)))
                            (at_time t w)))).
    + destruct (IH (record_call a
                      (set_self (with_last_call_ms (Some t) (self (at_time t w)))
                                (at_time t w))))
        as (w' & Hrun & Hc & Hp' & Htm); auto.
      * simpl. intros l Hl'. injection Hl' as <-. lia.
      * exists w'. split; [exact Hrun|]. split; [|split; assumption].
        rewrite Hc. simpl. now rewrite <- app_assoc.
    + now apply enabled_call.
    + simpl. rewrite (call_right_now depth a (at_time t w) Hp).
      * now apply call_func_passive.
      * simpl. rewrite Hd. intros l Hl'. specialize (Hl l Hl'). lia.
Qed.

End Properties.

(** * The scenarios, evaluated *)

Example scenario_called_once :
  run 0 [(0, Call (arg 1))] (fresh idle 100 0 []) = Finished called_once.
Proof. reflexivity. Qed.

Example scenario_armed :
  run 0 [(0, Call (arg 1)); (10, Call (arg 2))] (fresh idle 100 0 []) =
  Finished armed.
Proof. reflexivity. Qed.

(** The scenario of the specification: the call with 3 at time 50 replaces
    the pending 2, and the timer calls with 3 at time 100. *)
Example scenario_of_the_specification :
  exists w',
    run 0 [(0, Call (arg 1)); (10, Call (arg 2)); (50, Call (arg 3));
           (100, TimerFires)] (fresh idle 100 0 []) = Finished w' /\
    calls w' = [(0, arg 1); (100, arg 3)].
Proof. eexists. split; reflexivity. Qed.

(** [set_delay 5] at time 20, while 2 is pending: the timer still cannot
    fire before 100 and calls with 2 at 100; the call with 4 at 103 is then
    deferred under the new delay, to 105. *)
Example scenario_set_delay :
  run 0 [(0, Call (arg 1)); (10, Call (arg 2)); (20, SetDelay 5);
         (99, TimerFires)] (fresh idle 100 0 []) = Impossible /\
  exists w',
    run 0 [(0, Call (arg 1)); (10, Call (arg 2)); (20, SetDelay 5);
           (100, TimerFires); (103, Call (arg 4))] (fresh idle 100 0 []) =
      Finished w' /\
    calls w' = [(0, arg 1); (100, arg 2)] /\
    _pending_call (self w') = Some (arg 4) /\
    deadline (_timer (self w')) = Some 105.
Proof. split; [reflexivity|]. eexists. repeat split. Qed.

(** A throttle built with the delay -1 makes every call at once. *)
Example scenario_disabled :
  exists w',
    run 0 [(0, Call (arg 1)); (0, Call (arg 2)); (1, Call (arg 3))]
        (fresh idle (-1) 0 []) = Finished w' /\
    calls w' = [(0, arg 1); (0, arg 2); (1, arg 3)].
Proof. eexists. split; reflexivity. Qed.

(** * The claims on the scenarios *)

Lemma coalescing_witness :
  (exists w',
     run 0 [(0, Call (arg 1)); (10, Call (arg 2)); (50, Call (arg 3));
            (100, TimerFires)] (fresh idle 100 0 []) = Finished w' /\
     calls w' = calls (fresh idle 100 0 []) ++ [(0, arg 1); (100, arg 3)] /\
     _pending_call (self w') = None /\
     _last_call_ms (self w') = Some 100 /\
     (forall t, enabled t TimerFires w' = false)) /\
  (forall t, t < 0 + 100 ->
     run 0 [(0, Call (arg 1)); (10, Call (arg 2)); (50, Call (arg 3));
            (t, TimerFires)] (fresh idle 100 0 []) = Impossible).
Proof.
  apply (@coalescing Z 0 (fresh idle 100 0 []) 100 0 10 50 100
           (arg 1) (arg 2) (arg 3)).
  - reflexivity.
  - intros a. reflexivity.
  - reflexivity.
  - intros last H. discriminate H.
  - simpl. lia.
  - lia.
  - lia.
  - lia.
  - lia.
Defined.

Lemma suppression_window_witness :
  exists w1,
    __call__ 0 (arg 1) (at_time 0 (fresh idle 100 0 [])) = Ok w1 /\
    calls w1 = calls (fresh idle 100 0 []) ++ [(0, arg 1)] /\
    (forall t b, 0 < t - 0 < 100 ->
       exists w2,
         __call__ 0 b (at_time t w1) = Ok w2 /\
         calls w2 = calls w1 /\
         _pending_call (self w2) = Some b /\
         deadline (_timer (self w2)) = Some (0 + 100)) /\
    (forall evs,
       forallb (fun te => keeps_delay (snd te)) evs = true ->
       run 0 ((0, Call (arg 1)) :: evs) (fresh idle 100 0 []) = Impossible \/
       exists w' later,
         run 0 ((0, Call (arg 1)) :: evs) (fresh idle 100 0 []) = Finished w' /\
         calls w' = calls (fresh idle 100 0 []) ++ (0, arg 1) :: later /\
         Forall (fun tc => 0 + 100 <= fst tc) later).
Proof.
  apply (@suppression_window Z 0 (fresh idle 100 0 []) 100 0 (arg 1)).
  - reflexivity.
  - intros a. reflexivity.
  - reflexivity.
  - reflexivity.
  - intros last H. discriminate H.
  - simpl. lia.
Defined.

Lemma call_pending_asserts_pending_witness :
  _call_pending 0 called_once = Raise AssertionError called_once.
Proof.
  apply (@call_pending_asserts_pending Z 0 called_once). reflexivity.
Defined.

Lemma disabled_calls_right_now_witness :
  __call__ 0 (arg 2) disabled_called_once =
    call_func (run_func 0) (arg 2)
      (set_self
         (with_last_call_ms (Some (monotonic_ms disabled_called_once))
            (self disabled_called_once))
         disabled_called_once)
  /\ exists more,
       calls (world_of (__call__ 0 (arg 2) disabled_called_once)) =
       calls disabled_called_once ++
       (monotonic_ms disabled_called_once, arg 2) :: more.
Proof.
  apply (@disabled_calls_right_now Z 0 (arg 2) disabled_called_once).
  - reflexivity.
  - reflexivity.
  - intros last H. injection H as <-. simpl. lia.
Defined.

Lemma deferred_interval_nonneg_witness :
  exists w',
    __call__ 0 (arg 2) (at_time 10 called_once) = Ok w' /\
    interval (_timer (self w')) =
      _delay_ms (self (at_time 10 called_once)) -
      (monotonic_ms (at_time 10 called_once) - 0) /\
    0 <= interval (_timer (self w')) /\
    deadline (_timer (self w')) =
      Some (monotonic_ms (at_time 10 called_once) + interval (_timer (self w'))) /\
    monotonic_ms w' = monotonic_ms (at_time 10 called_once) /\
    _pending_call (self w') = Some (arg 2) /\
    calls w' = calls (at_time 10 called_once).
Proof.
  apply (@deferred_interval_nonneg Z 0 (arg 2) (at_time 10 called_once) 0).
  - reflexivity.
  - reflexivity.
  - simpl. lia.
Defined.

Lemma cancel_with_pending_blocks_later_calls_witness :
  exists w',
    run 0 (requests [(20, arg 3); (5000, arg 4)]) (cancel armed) = Finished w' /\
    calls w' = calls armed /\
    _timer (self w') = stop (_timer (self armed)) /\
    deadline (_timer (self w')) = None /\
    _last_call_ms (self w') = _last_call_ms (self armed) /\
    _pending_call (self w') =
      Some (last (map snd [(20, arg 3); (5000, arg 4)]) (arg 2)).
Proof.
  apply (@cancel_with_pending_blocks_later_calls Z 0 armed (arg 2)
           [(20, arg 3); (5000, arg 4)]).
  - reflexivity.
  - reflexivity.
Defined.

(** C3 as it is stated fails: on a throttle with nothing pending,
    [_call_pending] has no normal return. *)
Lemma call_pending_without_pending_is_not_silent :
  _pending_call (self called_once) = None /\
  ~ (exists w', _call_pending 0 called_once = Ok w').
Proof.
  split; [reflexivity|]. intros [w' H]. discriminate H.
Qed.

(** C6 as it is stated fails: the delay is set to -1 while the call with 2
    is pending; the call with 3 that arrives next, at time 30, is not made:
    only the call with 1 is recorded, and 3 is pending. *)
Lemma disabled_call_is_deferred_while_pending :
  exists w',
    run 0 [(0, Call (arg 1)); (10, Call (arg 2)); (20, SetDelay (-1));
           (30, Call (arg 3))] (fresh idle 100 0 []) = Finished w' /\
    _delay_ms (self w') = -1 /\
    calls w' = [(0, arg 1)] /\
    _pending_call (self w') = Some (arg 3).
Proof. eexists. repeat split. Qed.

(** C4 on the code: after the call with 1 at time 0 and the call with 2 at
    time 10, [cancel] at time 20 stops the timer but leaves 2 in
    [_pending_call].  The callable is never called with 2; but a call with
    3 at time 1000, long after the delay, still finds a call pending, is
    not made and arms no timer. *)
Theorem cancel_leaves_the_call_pending :
  exists w',
    run 0 [(0, Call (arg 1)); (10, Call (arg 2)); (20, Cancel)]
        (fresh idle 100 0 []) = Finished w' /\
    _pending_call (self w') = Some (arg 2) /\
    deadline (_timer (self w')) = None /\
    calls w' = [(0, arg 1)] /\
    exists w'',
      run 0 [(1000, Call (arg 3))] w' = Finished w'' /\
      calls w'' = [(0, arg 1)] /\
      _pending_call (self w'') = Some (arg 3) /\
      deadline (_timer (self w'')) = None.
Proof.
  eexists. split; [reflexivity|]. repeat split.
  eexists. repeat split.
Qed.

(** C8 on the code: the callable calls the throttle again, with 3, when it
    is called with 2.  When the timer makes the deferred call with 2 at time
    100, the call with 3 made from inside it is stored as pending and then
    erased when [_call_pending] goes on: the schedule ends with 1 and 2
    called, nothing pending and no timer armed, so 3 is never called.  The
    same call made from inside a call that is made right away is kept: 3 is
    pending and the timer is armed. *)
Theorem reentrant_call_from_deferred_call_is_lost :
  (exists w3 w4,
     run 1 [(0, Call (arg 1)); (10, Call (arg 2))] (fresh recalls 100 0 []) =
       Finished w3 /\
     call_func (run_func 1) (arg 2) (expire (at_time 100 w3)) = Ok w4 /\
     _pending_call (self w4) = Some (arg 3)) /\
  (exists w',
     run 1 [(0, Call (arg 1)); (10, Call (arg 2)); (100, TimerFires)]
         (fresh recalls 100 0 []) = Finished w' /\
     calls w' = [(0, arg 1); (100, arg 2)] /\
     _pending_call (self w') = None /\
     deadline (_timer (self w')) = None) /\
  (exists w',
     run 1 [(0, Call (arg 2))] (fresh recalls 100 0 []) = Finished w' /\
     calls w' = [(0, arg 2)] /\
     _pending_call (self w') = Some (arg 3) /\
     deadline (_timer (self w')) = Some 100).
Proof.
  split; [|split].
  - eexists. eexists. split; [reflexivity|]. split; reflexivity.
  - eexists. repeat split.
  - eexists. repeat split.
Qed.

(** * Every run from a fresh throttle *)

Section Runs.

Context {Any : Type}.

Implicit Types (w : World Any) (a p : _CallArgs Any).
Implicit Types (depth : nat) (cbs : list (callback Any)).

(** ** The assertion of [_call_pending] *)

(** Whatever the callable does, it does not itself fail an assertion. *)
Lemma call_body_raises run a w e w' :
  (forall cbs w0 e0 w1, run cbs w0 = Raise e0 w1 -> e0 = RecursionError) ->
  call_body run a w = Raise e w' -> e = RecursionError.
Proof.
  intros Hrun. unfold call_body, call_func.
  destruct (_pending_call (self w)); [discriminate|].
  destruct (_last_call_ms (self w)) as [l|]; [|now apply Hrun].
  destruct (monotonic_ms w - l >? _delay_ms (self w)); [now apply Hrun|discriminate].
Qed.

Lemma run_func_raises depth :
  forall cbs w e w', run_func depth cbs w = Raise e w' -> e = RecursionError.
Proof.
  induction depth as [|d IHd].
  - induction cbs as [|cb cbs IHcbs]; intros w e w';
      rewrite ?run_func_nil, ?run_func_cons; [discriminate|].
    destruct cb; simpl; try apply IHcbs. intros H. now injection H as <- _.
  - induction cbs as [|cb cbs IHcbs]; intros w e w';
      rewrite ?run_func_nil, ?run_func_cons; [discriminate|].
    destruct cb; simpl; try apply IHcbs.
    destruct (call_body (run_func d) a w) as [w1|e1 w1] eqn:Hc; simpl.
    + apply IHcbs.
    + intros H. injection H as <- _. now apply (call_body_raises _ _ _ _ _ IHd Hc).
Qed.

Lemma unarmed_pending_call_body run a w :
  unarmed_pending w ->
  exists w', call_body run a w = Ok w' /\ unarmed_pending w' /\ calls w' = calls w.
Proof.
  intros [Hp Hd]. unfold call_body.
  destruct (_pending_call (self w)) as [p|]; [|now elim Hp].
  eexists. split; [reflexivity|]. split; [|reflexivity].
  split; simpl; [discriminate|exact Hd].
Qed.

(** While a call is pending and no timer is armed, nothing the callable does
    arms the timer or calls the callable again. *)
Lemma unarmed_pending_run_func depth :
  forall cbs w,
    unarmed_pending w ->
    unarmed_pending (world_of (run_func depth cbs w)) /\
    calls (world_of (run_func depth cbs w)) = calls w.
Proof.
  induction cbs as [|cb cbs IH]; intros w Hw;
    rewrite ?run_func_nil, ?run_func_cons; [now split|].
  destruct cb as [a|d| |ms].
  - destruct depth as [|d]; [now split|].
    destruct (unarmed_pending_call_body (run_func d) a w Hw) as (w1 & -> & Hw1 & Hc1).
    simpl. rewrite <- Hc1. now apply IH.
  - simpl. apply (IH (set_delay d w)). exact Hw.
  - simpl. apply (IH (cancel w)). destruct Hw as [Hp _]. now split.
  - simpl. apply (IH (elapse ms w)). exact Hw.
Qed.

Lemma armed_ok_disarmed w : deadline (_timer (self w)) = None -> armed_ok w.
Proof. intros Hd d Hdl. rewrite Hd in Hdl. discriminate. Qed.

Lemma armed_ok_call_body run a w :
  (forall cbs w0, armed_ok w0 -> armed_ok (world_of (run cbs w0))) ->
  armed_ok w -> armed_ok (world_of (call_body run a w)).
Proof.
  intros Hrun Hw. unfold call_body, call_func.
  destruct (_pending_call (self w)) as [p|] eqn:Hp.
  - intros d Hdl. simpl in *. split; [apply (Hw d Hdl)|discriminate].
  - assert (Hnow : forall l, armed_ok
              (record_call a (set_self (with_last_call_ms l (self w)) w))).
    { intros l d Hdl. simpl in *. destruct (Hw d Hdl) as [_ Hne].
      rewrite Hp in Hne. now elim Hne. }
    destruct (_last_call_ms (self w)) as [l|]; [|now apply Hrun].
    destruct (monotonic_ms w - l >? _delay_ms (self w)); [now apply Hrun|].
    cbv zeta. rewrite rearmed. intros d Hdl. simpl. split; [reflexivity|discriminate].
Qed.

Lemma armed_ok_run_func depth :
  forall cbs w, armed_ok w -> armed_ok (world_of (run_func depth cbs w)).
Proof.
  induction depth as [|d IHd].
  - induction cbs as [|cb cbs IHcbs]; intros w Hw;
      rewrite ?run_func_nil, ?run_func_cons; [exact Hw|].
    destruct cb; simpl; try (apply IHcbs; exact Hw); [exact Hw|].
    apply IHcbs. now apply armed_ok_disarmed.
  - induction cbs as [|cb cbs IHcbs]; intros w Hw;
      rewrite ?run_func_nil, ?run_func_cons; [exact Hw|].
    destruct cb; simpl; try (apply IHcbs; exact Hw).
    + pose proof (armed_ok_call_body (run_func d) a w IHd Hw) as Hc.
      destruct (call_body (run_func d) a w) as [w1|e1 w1]; simpl in *; auto.
    + apply IHcbs. now apply armed_ok_disarmed.
Qed.

Lemma call_pending_unarmed depth w :
  unarmed_pending w ->
  armed_ok (world_of (_call_pending depth w)) /\
  (forall e w', _call_pending depth w = Raise e w' -> e = RecursionError).
Proof.
  intros Hw. unfold _call_pending.
  destruct (_pending_call (self w)) as [p|] eqn:Hp; [|destruct Hw as [Hne _]; now elim Hne].
  unfold call_func.
  assert (Hrec : unarmed_pending (record_call p w)).
  { destruct Hw as [_ Hd]. split; simpl; [rewrite Hp; discriminate|exact Hd]. }
  destruct (unarmed_pending_run_func depth (_func (self w) p) _ Hrec) as [[_ Hd1] _].
  destruct (run_func depth (_func (self w) p) (record_call p w)) as [w1|e1 w1] eqn:Hr;
    simpl in *.
  - split; [now apply armed_ok_disarmed|discriminate].
  - split; [now apply armed_ok_disarmed|].
    intros e w' H. injection H as <- _. now apply (run_func_raises _ _ _ _ _ Hr).
Qed.

Lemma timeout_armed depth w d :
  armed_ok w -> deadline (_timer (self w)) = Some d ->
  armed_ok (world_of (timeout depth w)) /\
  (forall e w', timeout depth w = Raise e w' -> e = RecursionError).
Proof.
  intros Hw Hdl. destruct (Hw d Hdl) as [Hr Hne].
  unfold timeout. rewrite Hr. cbn [emit].
  assert (Hex : unarmed_pending (expire w)) by (split; [exact Hne|reflexivity]).
  destruct (call_pending_unarmed depth (expire w) Hex) as [Hok Hraise].
  destruct (_call_pending depth (expire w)) as [w1|e1 w1]; simpl in *.
  - split; [exact Hok|discriminate].
  - split; [exact Hok|]. intros e w' H. injection H as <- _. now apply (Hraise e1 w1).
Qed.

Lemma handle_armed_ok depth t e w :
  armed_ok w -> enabled t e w = true ->
  armed_ok (world_of (handle depth e (at_time t w))) /\
  (forall x w', handle depth e (at_time t w) = Raise x w' -> x = RecursionError).
Proof.
  intros Hw He. destruct e as [a|d| |]; simpl.
  - split.
    + apply armed_ok_call_body; [apply armed_ok_run_func|exact Hw].
    + intros x w'. apply call_body_raises. apply run_func_raises.
  - split; [exact Hw|discriminate].
  - split; [now apply armed_ok_disarmed|discriminate].
  - destruct (enabled_timer_inv t w He) as (_ & d & Hdl & _).
    now apply (timeout_armed depth (at_time t w) d).
Qed.

Lemma run_armed_ok depth evs :
  forall w,
    armed_ok w ->
    (forall x w', run depth evs w = Crashed x w' -> x = RecursionError) /\
    (forall w', final (run depth evs w) = Some w' -> armed_ok w').
Proof.
  induction evs as [|[t e] evs IH]; intros w Hw.
  - split; [discriminate|]. simpl. intros w' H. now injection H as <-.
  - cbn [run]. destruct (enabled t e w) eqn:He; [|split; discriminate].
    destruct (handle_armed_ok depth t e w Hw He) as [Hok Hraise].
    destruct (handle depth e (at_time t w)) as [w1|x1 w1]; simpl in *.
    + now apply IH.
    + split.
      * intros x w' H. injection H as <- _. now apply (Hraise x1 w1).
      * intros w' H. now injection H as <-.
Qed.

(** X1: in any run from a fresh throttle, whatever the callable does
    (calling the throttle again, [set_delay], [cancel]) and whatever is
    scheduled, the assertion of [_call_pending] never fails: the only
    exception that can end the run is [RecursionError].  In the state the
    run ends in, an armed timer has [_call_pending] connected exactly once
    and a call pending. *)
Theorem call_pending_assertion_holds depth func delay_ms t0 log evs :
  (forall w', run depth evs (fresh func delay_ms t0 log) <> Crashed AssertionError w') /\
  (forall w', final (run depth evs (fresh func delay_ms t0 log)) = Some w' ->
              armed_ok w').
Proof.
  assert (H0 : armed_ok (fresh func delay_ms t0 log)) by now apply armed_ok_disarmed.
  destruct (run_armed_ok depth evs _ H0) as [Hcrash Hfin]. split.
  - intros w' H. specialize (Hcrash _ _ H). discriminate.
  - exact Hfin.
Qed.

(** ** After [cancel] with a call pending, whatever comes next *)

Lemma handle_unarmed_pending depth t e w :
  unarmed_pending w -> enabled t e w = true ->
  exists w',
    handle depth e (at_time t w) = Ok w' /\ unarmed_pending w' /\ calls w' = calls w.
Proof.
  intros Hw He. destruct e as [a|d| |]; simpl.
  - exact (unarmed_pending_call_body (run_func depth) a (at_time t w) Hw).
  - eexists. split; [reflexivity|]. now split.
  - eexists. split; [reflexivity|]. destruct Hw as [Hp _].
    split; [|reflexivity]. split; [exact Hp|reflexivity].
  - destruct Hw as [_ Hd].
    rewrite (not_enabled_timer_disarmed t w Hd) in He. discriminate.
Qed.

Lemma run_unarmed_pending depth evs :
  forall w,
    unarmed_pending w ->
    run depth evs w = Impossible \/
    exists w', run depth evs w = Finished w' /\ unarmed_pending w' /\ calls w' = calls w.
Proof.
  induction evs as [|[t e] evs IH]; intros w Hw.
  - right. exists w. split; [reflexivity|]. split; [exact Hw|reflexivity].
  - cbn [run]. destruct (enabled t e w) eqn:He; [|now left].
    destruct (handle_unarmed_pending depth t e w Hw He) as (w1 & -> & Hw1 & Hc1).
    rewrite <- Hc1. now apply IH.
Qed.

(** X2: when [cancel] is called from the event loop (not by the callable
    while it runs) and a call is pending, then in every schedule that
    follows (calls, [set_delay], [cancel] again), for every callable, the
    timer cannot fire, the schedule runs to its end without an exception,
    records no call, and leaves a call pending with no timer armed.  In
    particular the callable is never called with the arguments that were
    pending. *)
Theorem nothing_is_called_after_cancel_with_pending depth w p evs :
  _pending_call (self w) = Some p ->
  run depth evs (cancel w) = Impossible \/
  exists w',
    run depth evs (cancel w) = Finished w' /\
    calls w' = calls w /\
    _pending_call (self w') <> None /\
    deadline (_timer (self w')) = None.
Proof.
  intros Hp.
  assert (Hc : unarmed_pending (cancel w)).
  { split; simpl; [rewrite Hp; discriminate|reflexivity]. }
  destruct (run_unarmed_pending depth evs (cancel w) Hc)
    as [Himp|(w' & Hrun & [Hp' Hd'] & Hcalls)]; [now left|].
  right. exists w'. split; [exact Hrun|]. split; [exact Hcalls|]. now split.
Qed.

(** X18: a [cancel] made by the callable while the timer runs the pending
    call does not block the throttle: the pending call is cleared when the
    callable returns, so nothing stays pending, and a call that comes more
    than the delay later is made at once. *)
Theorem cancel_inside_the_deferred_call_does_not_block depth p a t w :
  receivers (_timer (self w)) = 1%nat ->
  _pending_call (self w) = Some p ->
  _func (self w) p = [ReCancel] ->
  _delay_ms (self w) < t - monotonic_ms w ->
  exists w1,
    timeout depth w = Ok w1 /\
    _pending_call (self w1) = None /\
    _last_call_ms (self w1) = Some (monotonic_ms w) /\
    deadline (_timer (self w1)) = None /\
    calls w1 = calls w ++ [(monotonic_ms w, p)] /\
    exists more,
      calls (world_of (__call__ depth a (at_time t w1))) =
      calls w ++ (monotonic_ms w, p) :: (t, a) :: more.
Proof.
  intros Hr Hp Hf Ht.
  unfold timeout. rewrite Hr. cbn [emit].
  unfold _call_pending, expire, call_func. simpl. rewrite Hp, Hf.
  rewrite run_func_cons. cbn [bind]. rewrite run_func_nil. cbn [bind].
  eexists. split; [reflexivity|]. simpl.
  repeat split.
  match goal with |- context [__call__ depth a ?w1] =>
    rewrite (call_right_now depth a w1 eq_refl)
      by (cbn; intros l Hl; injection Hl as <-; exact Ht);
    unfold call_func;
    match goal with |- context [run_func depth ?cbs ?w2] =>
      destruct (extends_run_func depth cbs w2) as (_ & _ & more & Hc)
    end
  end.
  exists more. rewrite Hc. cbn. now rewrite <- !app_assoc.
Qed.

(** ** The pace of the calls *)











(** ** A burst of calls *)

Lemma run_app depth evs1 evs2 :
  forall w w1,
    run depth evs1 w = Finished w1 ->
    run depth (evs1 ++ evs2) w = run depth evs2 w1.
Proof.
  induction evs1 as [|[t e] evs1 IH]; intros w w1 H.
  - simpl in *. now injection H as <-.
  - cbn [run app] in *. destruct (enabled t e w); [|discriminate].
    destruct (handle depth e (at_time t w)) as [w'|x w']; [|discriminate].
    now apply IH.
Qed.

(** X4: a call that comes too soon after the latest call ([t1 - l] within
    the delay) arms the timer; every call that arrives before the timer
    fires, however many and even after the delay has passed, only replaces
    the pending arguments.  When the timer fires, the callable is called
    exactly once, at that time, with the arguments of the last call of the
    burst; nothing is pending afterwards and the timer is disarmed. *)
Theorem burst_collapses_to_its_last_call depth w l t1 b reqs t3 :
  passive (self w) ->
  _pending_call (self w) = None ->
  _last_call_ms (self w) = Some l ->
  monotonic_ms w <= t1 ->
  t1 - l <= _delay_ms (self w) ->
  in_order t1 (map fst reqs) = true ->
  l + _delay_ms (self w) <= t3 ->
  last (map fst reqs) t1 <= t3 ->
  exists w',
    run depth ((t1, Call b) :: requests reqs ++ [(t3, TimerFires)]) w = Finished w' /\
    calls w' = calls w ++ [(t3, last (map snd reqs) b)] /\
    _pending_call (self w') = None /\
    _last_call_ms (self w') = Some t3 /\
    deadline (_timer (self w')) = None.
Proof.
  intros Hpas Hp Hl Ht1 Hsoon Ho Hdue Hlate.
  assert (Hle : monotonic_ms (at_time t1 w) - l <= _delay_ms (self (at_time t1 w)))
    by exact Hsoon.
  pose proof (call_deferred depth b (at_time t1 w) l Hp Hl Hle) as H1.
  match type of H1 with _ = Ok ?x => set (w1 := x) in H1 end.
  rewrite (run_cons depth t1 (Call b) _ w w1 (enabled_call t1 b w Ht1) H1).
  pose proof (pending_run_requests depth reqs w1 b eq_refl Ho) as H2.
  match type of H2 with _ = Finished ?x => set (w2 := x) in H2 end.
  rewrite (run_app depth (requests reqs) [(t3, TimerFires)] w1 w2 H2).
  pose proof (timeout_passive depth (last (map snd reqs) b) (at_time t3 w2)
                Hpas eq_refl eq_refl) as H3.
  match type of H3 with _ = Ok ?x => set (w3 := x) in H3 end.
  rewrite (run_cons depth t3 TimerFires [] w2 w3); [| |exact H3].
  - exists w3. split; [reflexivity|]. repeat split.
  - apply (enabled_timer t3 (t1 + (_delay_ms (self w) - (t1 - l))) w2).
    + exact Hlate.
    + reflexivity.
    + lia.
Qed.

(** ** A callable that takes time *)

(** X5: with a callable that takes [ms] milliseconds, the deferred call
    stamps [_last_call_ms] with the time at which the callable returned
    ([_call_pending] reads the clock after the call), whereas the same call
    made right away stamps the time at which the callable was entered
    ([__call__] reads the clock before the call).  Both record the call at
    the time of entry and leave the clock [ms] later. *)
Theorem deferred_call_stamps_return_immediate_call_stamps_entry depth a ms w :
  _func (self w) a = [Elapse ms] ->
  _pending_call (self w) = Some a ->
  (exists w',
     _call_pending depth w = Ok w' /\
     calls w' = calls w ++ [(monotonic_ms w, a)] /\
     monotonic_ms w' = monotonic_ms w + Z.of_N ms /\
     _last_call_ms (self w') = Some (monotonic_ms w + Z.of_N ms) /\
     _pending_call (self w') = None) /\
  (exists w',
     __call__ depth a
       (set_self (with_last_call_ms None (with_pending_call None (self w))) w) =
       Ok w' /\
     calls w' = calls w ++ [(monotonic_ms w, a)] /\
     monotonic_ms w' = monotonic_ms w + Z.of_N ms /\
     _last_call_ms (self w') = Some (monotonic_ms w) /\
     _pending_call (self w') = None).
Proof.
  intros Hf Hp. split.
  - unfold _call_pending, call_func. rewrite Hp, Hf.
    rewrite run_func_cons. cbn [bind]. rewrite run_func_nil. cbn [bind].
    eexists. split; [reflexivity|]. repeat split.
  - unfold __call__, call_body, call_func. simpl. rewrite Hf.
    rewrite run_func_cons. cbn [bind]. rewrite run_func_nil.
    eexists. split; [reflexivity|]. repeat split.
Qed.

(** ** A throttle whose delay is -1 from the start *)

(** X6: a throttle built with the delay -1, whose callable leaves it alone,
    makes every call at once: under every sequence of calls in time order,
    each call is recorded at its own time and in order, nothing is ever
    pending and the timer is never touched. *)
Theorem disabled_throttle_calls_every_time depth func t0 log reqs :
  (forall a, func a = []) ->
  in_order t0 (map fst reqs) = true ->
  exists w',
    run depth (requests reqs) (fresh func (-1) t0 log) = Finished w' /\
    calls w' = log ++ reqs /\
    _pending_call (self w') = None /\
    _timer (self w') = _timer (__init__ func (-1)).
Proof.
  intros Hpas Ho.
  apply (disabled_run depth reqs (fresh func (-1) t0 log)); auto.
  simpl. discriminate.
Qed.

(** ** A callable that calls the throttle again *)

(** X7: the callable, called right away with [a], takes [ms] milliseconds
    and then calls the throttle again with [b].  When [ms] is at most the
    delay, the inner call is deferred: the outer call returns with one call
    recorded, [b] pending and the timer due one delay after the outer call
    was made.  When [ms] is more than the delay (a negative delay
    included), nothing is deferred: the callable is entered again at once
    with [b], inside the outer call. *)
Theorem reentrant_call_is_deferred_unless_late depth a b ms w :
  _func (self w) a = [Elapse ms; Reenter b] ->
  _pending_call (self w) = None ->
  (forall l, _last_call_ms (self w) = Some l ->
             _delay_ms (self w) < monotonic_ms w - l) ->
  if Z.of_N ms <=? _delay_ms (self w) then
    exists w',
      __call__ (S depth) a w = Ok w' /\
      calls w' = calls w ++ [(monotonic_ms w, a)] /\
      _pending_call (self w') = Some b /\
      _last_call_ms (self w') = Some (monotonic_ms w) /\
      deadline (_timer (self w')) = Some (monotonic_ms w + _delay_ms (self w)) /\
      monotonic_ms w' = monotonic_ms w + Z.of_N ms
  else
    exists more,
      calls (world_of (__call__ (S depth) a w)) =
      calls w ++ (monotonic_ms w, a) :: (monotonic_ms w + Z.of_N ms, b) :: more.
Proof.
  intros Hf Hp Hl.
  rewrite (call_right_now (S depth) a w Hp Hl).
  unfold call_func. simpl _func. rewrite Hf.
  rewrite run_func_cons. cbn [bind]. rewrite run_func_cons.
  match goal with |- context [call_body (run_func depth) b ?w1] =>
    change (call_body (run_func depth) b w1) with (__call__ depth b w1);
    set (W := w1)
  end.
  destruct (Z.of_N ms <=? _delay_ms (self w)) eqn:E.
  - apply Z.leb_le in E.
    rewrite (call_deferred depth b W (monotonic_ms w) Hp eq_refl)
      by (simpl; lia).
    cbn [bind]. rewrite run_func_nil.
    eexists. split; [reflexivity|]. simpl. repeat split. f_equal. lia.
  - apply Z.leb_gt in E.
    rewrite (call_right_now depth b W Hp)
      by (simpl; intros l Hl'; injection Hl' as <-; lia).
    unfold call_func.
    match goal with |- context [run_func depth ?cbs ?w1] =>
      destruct (extends_run_func depth cbs w1) as (_ & _ & more & Hc);
      destruct (run_func depth cbs w1) as [w2|e w2]
    end; cbn [bind world_of] in *; rewrite ?run_func_nil; cbn [world_of];
      exists more; rewrite Hc; simpl; now rewrite <- !app_assoc.
Qed.

(** X8: with the delay -1 nothing is ever deferred, so a callable that
    calls the throttle again each time it is called recurses until Python's
    recursion limit: the call ends in [RecursionError], the callable having
    been entered once per level of nesting. *)
Theorem disabled_throttle_recurses depth :
  forall a w,
    (forall x, _func (self w) x = [Reenter x]) ->
    _delay_ms (self w) = -1 ->
    _pending_call (self w) = None ->
    (forall l, _last_call_ms (self w) = Some l -> l <= monotonic_ms w) ->
    exists w',
      __call__ depth a w = Raise RecursionError w' /\
      calls w' = calls w ++ repeat (monotonic_ms w, a) (S depth).
Proof.
  induction depth as [|d IH]; intros a w Hf Hd Hp Hl.
  - rewrite (call_right_now 0 a w Hp).
    2:{ rewrite Hd. intros l Hl'. specialize (Hl l Hl'). lia. }
    unfold call_func. simpl _func. rewrite Hf.
    rewrite run_func_cons. simpl. eexists. split; reflexivity.
  - rewrite (call_right_now (S d) a w Hp).
    2:{ rewrite Hd. intros l Hl'. specialize (Hl l Hl'). lia. }
    unfold call_func. simpl _func. rewrite Hf.
    rewrite run_func_cons.
    match goal with |- context [call_body (run_func d) a ?w1] =>
      destruct (IH a w1) as (w' & Hcall & Hcalls)
    end.
    + exact Hf.
    + exact Hd.
    + exact Hp.
    + simpl. intros l Hl'. injection Hl' as <-. lia.
    + unfold __call__ in Hcall. rewrite Hcall. simpl.
      exists w'. split; [reflexivity|].
      rewrite Hcalls. simpl. now rewrite <- app_assoc.
Qed.

(** ** [cancel] with no timer armed *)

(** X9: on a throttle whose timer is not armed, [cancel] changes nothing
    at all, so whatever follows runs as if [cancel] had not been called. *)
Theorem cancel_without_armed_timer_changes_nothing depth w evs :
  deadline (_timer (self w)) = None ->
  cancel w = w /\ run depth evs (cancel w) = run depth evs w.
Proof.
  intros Hd. rewrite (cancel_disarmed w Hd). now split.
Qed.

End Runs.

(** * The runs on the scenarios *)

Lemma nothing_is_called_after_cancel_with_pending_witness :
  run 0 [(20, Call (arg 3)); (30, SetDelay 5); (40, Cancel); (900, Call (arg 4))]
      (cancel armed) = Impossible \/
  exists w',
    run 0 [(20, Call (arg 3)); (30, SetDelay 5); (40, Cancel); (900, Call (arg 4))]
        (cancel armed) = Finished w' /\
    calls w' = calls armed /\
    _pending_call (self w') <> None /\
    deadline (_timer (self w')) = None.
Proof.
  apply (@nothing_is_called_after_cancel_with_pending Z 0 armed (arg 2)).
  reflexivity.
Defined.

Lemma cancel_inside_the_deferred_call_does_not_block_witness :
  exists w1,
    timeout 0 armed_cancelling = Ok w1 /\
    _pending_call (self w1) = None /\
    _last_call_ms (self w1) = Some 100 /\
    deadline (_timer (self w1)) = None /\
    calls w1 = [(0, arg 1)] ++ [(100, arg 2)] /\
    exists more,
      calls (world_of (__call__ 0 (arg 3) (at_time 300 w1))) =
      [(0, arg 1)] ++ (100, arg 2) :: (300, arg 3) :: more.
Proof.
  apply (@cancel_inside_the_deferred_call_does_not_block Z 0 (arg 2) (arg 3)
           300 armed_cancelling).
  - reflexivity.
  - reflexivity.
  - reflexivity.
  - simpl. lia.
Defined.


Lemma burst_collapses_to_its_last_call_witness :
  exists w',
    run 0 ((10, Call (arg 2)) :: requests [(50, arg 3); (120, arg 4)] ++
           [(130, TimerFires)]) called_once = Finished w' /\
    calls w' = calls called_once ++ [(130, last (map snd [(50, arg 3); (120, arg 4)]) (arg 2))] /\
    _pending_call (self w') = None /\
    _last_call_ms (self w') = Some 130 /\
    deadline (_timer (self w')) = None.
Proof.
  apply (@burst_collapses_to_its_last_call Z 0 called_once 0 10 (arg 2)
           [(50, arg 3); (120, arg 4)] 130).
  - intros a. reflexivity.
  - reflexivity.
  - reflexivity.
  - simpl. lia.
  - simpl. lia.
  - reflexivity.
  - simpl. lia.
  - simpl. lia.
Defined.

Lemma deferred_call_stamps_return_immediate_call_stamps_entry_witness :
  (exists w',
     _call_pending 0
       (at_time 100 (set_self (with_pending_call (Some (arg 2))
                                 (self (fresh slow 100 0 [])))
                              (fresh slow 100 0 []))) = Ok w' /\
     calls w' = [(100, arg 2)] /\
     monotonic_ms w' = 107 /\
     _last_call_ms (self w') = Some 107 /\
     _pending_call (self w') = None) /\
  (exists w',
     __call__ 0 (arg 2) (at_time 100 (fresh slow 100 0 [])) = Ok w' /\
     calls w' = [(100, arg 2)] /\
     monotonic_ms w' = 107 /\
     _last_call_ms (self w') = Some 100 /\
     _pending_call (self w') = None).
Proof.
  apply (@deferred_call_stamps_return_immediate_call_stamps_entry Z 0 (arg 2) 7
           (at_time 100 (set_self (with_pending_call (Some (arg 2))
                                     (self (fresh slow 100 0 [])))
                                  (fresh slow 100 0 [])))).
  - reflexivity.
  - reflexivity.
Defined.

Lemma disabled_throttle_calls_every_time_witness :
  exists w',
    run 0 (requests [(0, arg 1); (0, arg 2); (1, arg 3)]) (fresh idle (-1) 0 []) =
      Finished w' /\
    calls w' = [] ++ [(0, arg 1); (0, arg 2); (1, arg 3)] /\
    _pending_call (self w') = None /\
    _timer (self w') = _timer (__init__ idle (-1)).
Proof.
  apply (@disabled_throttle_calls_every_time Z 0 idle 0 []
           [(0, arg 1); (0, arg 2); (1, arg 3)]).
  - intros a. reflexivity.
  - reflexivity.
Defined.

Lemma reentrant_call_is_deferred_unless_late_witness :
  exists w',
    __call__ 1 (arg 2) (fresh late_recalls 100 0 []) = Ok w' /\
    calls w' = [] ++ [(0, arg 2)] /\
    _pending_call (self w') = Some (arg 3) /\
    _last_call_ms (self w') = Some 0 /\
    deadline (_timer (self w')) = Some (0 + 100) /\
    monotonic_ms w' = 0 + Z.of_N 5.
Proof.
  apply (@reentrant_call_is_deferred_unless_late Z 0 (arg 2) (arg 3) 5
           (fresh late_recalls 100 0 [])).
  - reflexivity.
  - reflexivity.
  - intros l H. discriminate H.
Defined.

Lemma disabled_throttle_recurses_witness :
  exists w',
    __call__ 3 (arg 1) (fresh again (-1) 0 []) = Raise RecursionError w' /\
    calls w' = [] ++ repeat (0, arg 1) 4.
Proof.
  apply (@disabled_throttle_recurses Z 3 (arg 1) (fresh again (-1) 0 [])).
  - intros x. reflexivity.
  - reflexivity.
  - reflexivity.
  - intros l H. discriminate H.
Defined.

Lemma cancel_without_armed_timer_changes_nothing_witness :
  cancel called_once = called_once /\
  run 0 [(10, Call (arg 2)); (100, TimerFires)] (cancel called_once) =
  run 0 [(10, Call (arg 2)); (100, TimerFires)] called_once.
Proof.
  apply (@cancel_without_armed_timer_changes_nothing Z 0 called_once).
  reflexivity.
Defined.

(** * The QtWebKit tab *)

Module WebKitElementsFacts.

Import WebKitElements.

Lemma escape_length (s : str) :
  List.length (escape s) = (List.length s + List.length (escaped s))%nat.
Proof.
  unfold escaped. induction s as [|c s IH]; cbn; [reflexivity|].
  destruct (in_class c); cbn; lia.
Qed.

Lemma escape_injective (a : str) :
  forall b, escape a = escape b -> a = b.
Proof.
  induction a as [|x a IH]; intros [|y b]; cbn.
  - reflexivity.
  - destruct (in_class y); discriminate.
  - destruct (in_class x); discriminate.
  - destruct (in_class x) eqn:Ex, (in_class y) eqn:Ey; intros H.
    + injection H as -> H. now rewrite (IH b H).
    + injection H as -> H. discriminate Ex.
    + injection H as <- H. discriminate Ey.
    + injection H as -> H. now rewrite (IH b H).
Qed.

Lemma escaped_nil (s : str) :
  escaped s = [] <-> forallb in_class s = true.
Proof.
  unfold escaped. induction s as [|c s IH]; cbn; [tauto|].
  destruct (in_class c); cbn; [exact IH|].
  split; discriminate.
Qed.

(** X10. [find_id] never asks for two different ids with the same selector:
    the selector it builds determines the id. *)
Theorem find_id_selectors_differ (a b : str) :
  a <> b -> selector a <> selector b.
Proof.
  intros Hab H. apply Hab. injection H as H. now apply escape_injective.
Qed.

Lemma unescape_escape (s : str) : unescape (escape s) = Some s.
Proof.
  induction s as [|c s IH]; cbn [escape]; [reflexivity|].
  destruct (in_class c) eqn:Ec.
  - cbn [unescape]. now rewrite Ec, IH.
  - cbn [unescape]. change (in_class backslash) with false.
    rewrite N.eqb_refl, Ec, IH. reflexivity.
Qed.

Lemma unescape_only_escape (sel : str) :
  forall s, unescape sel = Some s -> sel = escape s.
Proof.
  induction sel as [sel IH] using (induction_ltof1 _ (@List.length N)).
  unfold ltof in IH. intros s H.
  destruct sel as [|c rest]; cbn [unescape] in H.
  - injection H as <-. reflexivity.
  - destruct (in_class c) eqn:Ec.
    + destruct (unescape rest) as [s'|] eqn:E; [|discriminate].
      injection H as <-. cbn [escape]. rewrite Ec. f_equal.
      apply IH; [cbn; lia | exact E].
    + destruct (c =? backslash)%N eqn:Eb; [|discriminate].
      apply N.eqb_eq in Eb. subst c.
      destruct rest as [|d rest']; [discriminate|].
      destruct (in_class d) eqn:Ed; [discriminate|].
      destruct (unescape rest') as [s'|] eqn:E; [|discriminate].
      injection H as <-. cbn [escape]. rewrite Ed. do 2 f_equal.
      apply IH; [cbn; lia | exact E].
Qed.

(** X11. The selector of [find_id] is a hash sign and the id in which each
    character that is not in [a-zA-Z0-9_-] has one backslash before it, and
    nothing else: the escaped id is the only text that reads back as the id
    when a backslash is taken to escape the character after it, it is one
    character longer for every escaped character, and it is the id itself
    exactly when the id has none. *)
Theorem find_id_escapes_the_other_characters (s : str) :
  (forall sel, unescape sel = Some s <-> hash :: sel = selector s) /\
  List.length (selector s) = S (List.length s + List.length (escaped s)) /\
  (selector s = hash :: s <-> forallb in_class s = true).
Proof.
  split; [|split].
  - intros sel. unfold selector. split.
    + intros H. f_equal. now apply unescape_only_escape.
    + intros H. injection H as ->. apply unescape_escape.
  - cbn. now rewrite escape_length.
  - unfold selector. split.
    + intros H. injection H as H. apply escaped_nil.
      pose proof (escape_length s) as L. rewrite H in L.
      destruct (escaped s); [reflexivity | cbn in L; lia].
    + intros H. f_equal.
      induction s as [|c s IH]; cbn in *; [reflexivity|].
      apply andb_prop in H as [-> H]. now rewrite IH.
Qed.

Lemma find_id_selectors_differ_witness :
  selector dotted <> selector dotted_escaped.
Proof. apply find_id_selectors_differ. discriminate. Defined.

End WebKitElementsFacts.

Module WebKitScrollerFacts.

Import WebKitScroller.

Section Facts.

Context {Page : Type}.
Variable scrollBarValue scrollBarMinimum scrollBarMaximum :
  Page -> Orientation -> Z.
Variable fake_key_press : Key -> Page -> Page.

Local Abbreviation at_limit :=
  (at_limit Page scrollBarValue scrollBarMinimum scrollBarMaximum).
Local Abbreviation key_press_loop :=
  (key_press_loop Page scrollBarValue scrollBarMinimum scrollBarMaximum
     fake_key_press).
Local Abbreviation _key_press :=
  (_key_press Page scrollBarValue scrollBarMinimum scrollBarMaximum
     fake_key_press).

Lemma key_press_loop_spec (key : Key) limit (n : nat) :
  forall w, exists k,
    (k <= n)%nat /\
    key_press_loop n key limit w =
      {| page := Nat.iter k (fake_key_press key) (page w);
         keys := keys w ++ repeat key k |} /\
    (forall i, (i < k)%nat ->
       at_limit limit (Nat.iter i (fake_key_press key) (page w)) = false) /\
    ((k < n)%nat ->
       at_limit limit (Nat.iter k (fake_key_press key) (page w)) = true).
Proof.
  induction n as [|n IH]; intros w.
  - exists 0%nat. cbn. rewrite app_nil_r. destruct w.
    repeat split; [lia | intros; lia | intros; lia].
  - cbn [WebKitScroller.key_press_loop].
    destruct (at_limit limit (page w)) eqn:E.
    + exists 0%nat. cbn. rewrite app_nil_r. destruct w.
      repeat split; [lia | intros; lia | now intros].
    + destruct (IH {| page := fake_key_press key (page w);
                      keys := keys w ++ [key] |})
        as (k & Hk & Heq & Hlt & Hstop).
      cbn [page keys] in *.
      exists (S k). split; [lia|]. split; [|split].
      * rewrite Heq, Nat.iter_succ_r, <- app_assoc. reflexivity.
      * intros [|i] Hi; [exact E|].
        rewrite Nat.iter_succ_r. apply Hlt. lia.
      * intros Hn. rewrite Nat.iter_succ_r. apply Hstop. lia.
Qed.

Lemma key_press_loop_at_limit (key : Key) limit (n : nat) w :
  at_limit limit (page w) = true -> key_press_loop n key limit w = w.
Proof. destruct n; cbn; [reflexivity|]. now intros ->. Qed.

Lemma key_press_loop_add (key : Key) limit (m n : nat) :
  forall w,
    key_press_loop n key limit (key_press_loop m key limit w) =
    key_press_loop (m + n) key limit w.
Proof.
  induction m as [|m IH]; intros w; [reflexivity|].
  cbn [WebKitScroller.key_press_loop Nat.add].
  destruct (at_limit limit (page w)) eqn:E.
  - now apply key_press_loop_at_limit.
  - apply IH.
Qed.

(** X12. [_key_press] sends the key [k] times, for some [k] that is at most
    [count] and at most 5000, and nothing at all for a [count] that is not
    positive. No key is sent while the scroll bar is at the limit
    ([getter(direction)]), and when fewer than [min(count, 5000)] keys were
    sent the scroll bar is at the limit. *)
Theorem key_press_sends_keys_up_to_the_limit (key : Key) (count : Z) limit w :
  exists k : nat,
    Z.of_nat k <= Z.max 0 count /\
    Z.of_nat k <= 5000 /\
    _key_press key count limit w =
      {| page := Nat.iter k (fake_key_press key) (page w);
         keys := keys w ++ repeat key k |} /\
    (forall i, (i < k)%nat ->
       at_limit limit (Nat.iter i (fake_key_press key) (page w)) = false) /\
    (Z.of_nat k < Z.min count 5000 ->
       at_limit limit (Nat.iter k (fake_key_press key) (page w)) = true).
Proof.
  unfold WebKitScroller._key_press.
  destruct (key_press_loop_spec key limit (Z.to_nat (Z.min count 5000)) w)
    as (k & Hk & Heq & Hlt & Hstop).
  exists k. repeat split; [lia | lia | exact Heq | exact Hlt |].
  intros H. apply Hstop. lia.
Qed.

(** X13. Scrolling by [m] keys and then by [n] keys is scrolling by [m + n]
    keys, as long as [m + n] is at most 5000: once the limit is reached
    both stop. *)
Theorem key_presses_add_up (key : Key) (m n : Z) limit w :
  0 <= m -> 0 <= n -> m + n <= 5000 ->
  _key_press key n limit (_key_press key m limit w) =
  _key_press key (m + n) limit w.
Proof.
  intros Hm Hn Hmn. unfold WebKitScroller._key_press.
  rewrite key_press_loop_add. f_equal. lia.
Qed.

End Facts.

Lemma key_presses_add_up_witness :
  down Z lines_value lines_minimum lines_maximum lines_key_press 3
    (down Z lines_value lines_minimum lines_maximum lines_key_press 2
       {| page := 6; keys := [] |}) =
  down Z lines_value lines_minimum lines_maximum lines_key_press (2 + 3)
    {| page := 6; keys := [] |}.
Proof.
  apply (key_presses_add_up lines_value lines_minimum lines_maximum
           lines_key_press Key_Down 2 3); lia.
Defined.

End WebKitScrollerFacts.

Module WebKitSearchFacts.

Import WebKitSearch.

Lemma backward_wrap (f : Z) :
  backward (Z.lor f FindWrapsAroundDocument) = backward f.
Proof.
  unfold backward. rewrite Z.land_lor_distr_l.
  change (Z.land FindWrapsAroundDocument FindBackward) with 0.
  now rewrite Z.lor_0_r.
Qed.

Lemma backward_cleared (f : Z) :
  backward (Z.land f (Z.lnot FindBackward)) = false.
Proof.
  unfold backward. rewrite <- Z.land_assoc.
  change (Z.land (Z.lnot FindBackward) FindBackward) with 0.
  now rewrite Z.land_0_r.
Qed.

Lemma backward_set (f : Z) : backward (Z.lor f FindBackward) = true.
Proof.
  unfold backward. rewrite Z.land_lor_distr_l.
  change (Z.land FindBackward FindBackward) with 1.
  destruct (Z.lor (Z.land f FindBackward) 1 =? 0) eqn:E; [|reflexivity].
  apply Z.eqb_eq, Z.lor_eq_0_iff in E. now destruct E.
Qed.

Lemma testbit_FindBackward (n : Z) : 0 < n -> Z.testbit FindBackward n = false.
Proof.
  intros H. change FindBackward with (2 ^ 0).
  rewrite Z.pow2_bits_eqb by lia. apply Z.eqb_neq. lia.
Qed.

Lemma direction_next (wrap : bool) (F : Z) :
  negb (Z.land (if wrap then Z.lor F FindWrapsAroundDocument else F)
          FindBackward =? 0) = backward F.
Proof. destruct wrap; [apply backward_wrap | reflexivity]. Qed.

Lemma direction_prev (wrap : bool) (F : Z) :
  negb (Z.land
          (if wrap
           then Z.lor (if backward F
                       then Z.land F (Z.lnot FindBackward)
                       else Z.lor F FindBackward) FindWrapsAroundDocument
           else if backward F
                then Z.land F (Z.lnot FindBackward)
                else Z.lor F FindBackward)
          FindBackward =? 0) = negb (backward F).
Proof.
  destruct wrap, (backward F) eqn:B; cbn [negb];
    repeat match goal with
    | |- negb (Z.land ?f FindBackward =? 0) = _ =>
        change (backward f = false) || change (backward f = true)
    end;
    rewrite ?backward_wrap;
    auto using backward_cleared, backward_set.
Qed.

Lemma text_eqb_refl (t : str) : text_eqb (Some t) t = true.
Proof. cbn. now destruct (list_eq_dec N.eq_dec t t). Qed.

Lemma text_eqb_true (a : option str) (t : str) :
  text_eqb a t = true -> a = Some t.
Proof.
  destruct a as [a|]; cbn; [|discriminate].
  destruct (list_eq_dec N.eq_dec a t); [now subst | discriminate].
Qed.

Section Facts.

Context {Widget Callback IgnoreCase : Type}.
Variable findText : Widget -> option str -> Z -> bool * Widget.
Variable _is_case_sensitive : option str -> IgnoreCase -> bool.

Local Abbreviation World := (World Widget Callback).
Local Abbreviation call_findText := (call_findText Widget findText Callback).
Local Abbreviation _call_cb := (_call_cb Widget Callback).
Local Abbreviation clear := (clear Widget findText Callback).
Local Abbreviation search :=
  (search Widget findText Callback IgnoreCase _is_case_sensitive).
Local Abbreviation next_result := (next_result Widget findText Callback).
Local Abbreviation prev_result := (prev_result Widget findText Callback).
Local Abbreviation _args_to_flags := (_args_to_flags IgnoreCase _is_case_sensitive).
Local Abbreviation searched := (searched Callback).
Local Abbreviation scheduled := (scheduled Callback).
Local Abbreviation finished := (finished Callback).

Lemma searched_app (a b : list (effect Callback)) :
  searched (a ++ b) = searched a ++ searched b.
Proof.
  induction a as [|e a IH]; cbn; [reflexivity|].
  destruct e; cbn; now rewrite IH.
Qed.

Lemma scheduled_app (a b : list (effect Callback)) :
  scheduled (a ++ b) = scheduled a ++ scheduled b.
Proof.
  induction a as [|e a IH]; cbn; [reflexivity|].
  destruct e; cbn; now rewrite IH.
Qed.

Lemma finished_app (a b : list (effect Callback)) :
  finished (a ++ b) = finished a ++ finished b.
Proof.
  induction a as [|e a IH]; cbn; [reflexivity|].
  destruct e; cbn; now rewrite IH.
Qed.

Lemma call_findText_eq (t : option str) (f : Z) (w : World) :
  call_findText t f w =
  (fst (findText (_widget w) t f),
   {| self := self w;
      _widget := snd (findText (_widget w) t f);
      trace := trace w ++ [findText_call t f] |}).
Proof.
  unfold WebKitSearch.call_findText. now destruct (findText _ _ _).
Qed.

Lemma call_cb_self cb found t f c (w : World) :
  self (world_of (_call_cb cb found t f c w)) = self w.
Proof. unfold WebKitSearch._call_cb. now destruct t, cb. Qed.

Lemma call_cb_widget cb found t f c (w : World) :
  _widget (world_of (_call_cb cb found t f c w)) = _widget w.
Proof. unfold WebKitSearch._call_cb. now destruct t, cb. Qed.

Lemma call_cb_searched cb found t f c (w : World) :
  searched (trace (world_of (_call_cb cb found t f c w))) =
  searched (trace w).
Proof.
  unfold WebKitSearch._call_cb. destruct t, cb; cbn;
    rewrite ?searched_app; cbn; now rewrite ?app_nil_r.
Qed.

Lemma call_cb_returns cb found tx f c (w : World) :
  _call_cb cb found (Some tx) f c w =
  Ok (world_of (_call_cb cb found (Some tx) f c w)).
Proof. reflexivity. Qed.

Lemma call_cb_finished cb found tx f c (w : World) :
  finished (trace (world_of (_call_cb cb found (Some tx) f c w))) =
  finished (trace w) ++ [found].
Proof.
  unfold WebKitSearch._call_cb. destruct cb; cbn;
    rewrite ?finished_app; cbn; now rewrite ?app_nil_r.
Qed.

Lemma clear_self (w : World) :
  self (clear w) = with_search_displayed false (self w).
Proof.
  unfold WebKitSearch.clear. rewrite !call_findText_eq. cbn.
  now destruct (search_displayed (self w)).
Qed.

Lemma clear_scheduled (w : World) :
  scheduled (trace (clear w)) = scheduled (trace w).
Proof.
  unfold WebKitSearch.clear. rewrite !call_findText_eq. cbn.
  destruct (search_displayed (self w)); cbn;
    rewrite ?scheduled_app; cbn; now rewrite ?app_nil_r.
Qed.

Lemma clear_finished (w : World) :
  finished (trace (clear w)) = finished (trace w).
Proof.
  unfold WebKitSearch.clear. rewrite !call_findText_eq. cbn.
  destruct (search_displayed (self w)); cbn;
    rewrite ?finished_app; cbn; now rewrite ?app_nil_r.
Qed.

Lemma clear_searched (w : World) :
  searched (trace (clear w)) =
  searched (trace w) ++ [(Some [], 0); (Some [], HighlightAllOccurrences)].
Proof.
  unfold WebKitSearch.clear. rewrite !call_findText_eq. cbn.
  destruct (search_displayed (self w)); cbn;
    rewrite ?searched_app; cbn; rewrite ?searched_app; cbn;
    now rewrite ?app_nil_r, <- ?app_assoc.
Qed.

Lemma args_to_flags_text rev ic (s s' : Search) :
  text s = text s' -> _args_to_flags rev ic s = _args_to_flags rev ic s'.
Proof. unfold WebKitSearch._args_to_flags. now intros ->. Qed.

Lemma search_returns t ic rev cb (w : World) :
  search t ic rev cb w = Ok (world_of (search t ic rev cb w)).
Proof.
  unfold WebKitSearch.search.
  destruct (text_eqb (text (self w)) t && search_displayed (self w));
    [reflexivity|].
  rewrite !call_findText_eq. cbn [fst snd]. apply call_cb_returns.
Qed.

Lemma search_self t ic rev cb (w : World) :
  text (self (world_of (search t ic rev cb w))) = Some t /\
  search_displayed (self (world_of (search t ic rev cb w))) = true.
Proof.
  unfold WebKitSearch.search.
  destruct (text_eqb (text (self w)) t) eqn:Et; cbn [andb].
  - destruct (search_displayed (self w)) eqn:Ed.
    + cbn. split; [now apply text_eqb_true | exact Ed].
    + rewrite !call_findText_eq. cbn [fst snd].
      rewrite call_cb_self. cbn. now split.
  - rewrite !call_findText_eq. cbn [fst snd].
    rewrite call_cb_self. cbn. now split.
Qed.

(** A search that is not a repetition: the page is cleared, asked for the
    text twice (the second time to highlight it), and the callback gets
    what the first of the two found. *)
Lemma search_runs (t : str) ic rev cb (w : World) :
  text_eqb (text (self w)) t && search_displayed (self w) = false ->
  let f := _args_to_flags rev ic (with_text (Some t) (self w)) in
  let found := fst (findText (_widget (clear w)) (Some t) f) in
  let widget := snd (findText (_widget (clear w)) (Some t) f) in
  let w' := world_of (search t ic rev (Some cb) w) in
  searched (trace w') =
    searched (trace (clear w)) ++
    [(Some t, f); (Some t, Z.lor f HighlightAllOccurrences)] /\
  scheduled (trace w') = scheduled (trace w) ++ [(cb, of_bool found)] /\
  finished (trace w') = finished (trace w) ++ [found] /\
  _widget w' =
    snd (findText widget (Some t) (Z.lor f HighlightAllOccurrences)) /\
  self w' = {| text := Some t; search_displayed := true; _flags := f |}.
Proof.
  intros E f found widget w'. subst w'.
  unfold WebKitSearch.search. rewrite E.
  rewrite !call_findText_eq. cbn [fst snd].
  cbn [self set_self _flags with_flags with_text with_search_displayed
       text search_displayed _widget trace].
  assert (Ef : _args_to_flags rev ic
                 (with_search_displayed true
                    (with_text (Some t) (self (clear w)))) = f)
    by now apply args_to_flags_text.
  rewrite Ef. fold found. fold widget.
  split; [|split; [|split; [|split]]].
  - rewrite call_cb_searched. cbn [trace].
    rewrite !searched_app. cbn [WebKitSearch.searched].
    now rewrite <- app_assoc.
  - unfold WebKitSearch._call_cb. cbn [world_of emit trace].
    rewrite !scheduled_app. cbn [WebKitSearch.scheduled].
    rewrite !app_nil_r, clear_scheduled. reflexivity.
  - rewrite call_cb_finished. cbn [trace].
    rewrite !finished_app. cbn [WebKitSearch.finished].
    rewrite !app_nil_r, clear_finished. reflexivity.
  - rewrite call_cb_widget. reflexivity.
  - rewrite call_cb_self. reflexivity.
Qed.

(** X14. [next_result] searches in the direction of the last [search] and
    [prev_result] in the other one; apart from the direction both search
    with the same flags and for the same text, and neither changes the
    flags kept for the next movement. *)
Theorem prev_result_searches_the_other_way (wrap : bool) cb cb' (w : World) :
  exists f1 f2,
    searched (trace (world_of (next_result wrap cb w))) =
      searched (trace w) ++ [(text (self w), f1)] /\
    searched (trace (world_of (prev_result wrap cb' w))) =
      searched (trace w) ++ [(text (self w), f2)] /\
    backward f1 = backward (_flags (self w)) /\
    backward f2 = negb (backward (_flags (self w))) /\
    (forall n, 0 < n -> Z.testbit f2 n = Z.testbit f1 n) /\
    self (world_of (next_result wrap cb w)) =
      with_search_displayed true (self w) /\
    self (world_of (prev_result wrap cb' w)) =
      with_search_displayed true (self w).
Proof.
  unfold WebKitSearch.next_result, WebKitSearch.prev_result.
  rewrite !call_findText_eq. cbn [fst snd self set_self _flags text
    with_search_displayed].
  eexists _, _. split; [|split].
  - rewrite call_cb_searched. cbn [trace]. rewrite searched_app.
    reflexivity.
  - rewrite call_cb_searched. cbn [trace]. rewrite searched_app.
    reflexivity.
  - rewrite !call_cb_self. cbn [self].
    fold (backward (_flags (self w))).
    set (F := _flags (self w)).
    repeat split.
    + destruct wrap; [apply backward_wrap | reflexivity].
    + destruct (backward F) eqn:B; cbn [negb];
        destruct wrap; rewrite ?backward_wrap;
        auto using backward_cleared, backward_set.
    + intros n Hn.
      assert (Hb : Z.testbit FindBackward n = false)
        by now apply testbit_FindBackward.
      destruct (backward F), wrap;
        rewrite ?Z.lor_spec, ?Z.land_spec, ?Z.lnot_spec, ?Hb by lia;
        cbn; now rewrite ?andb_true_r, ?orb_false_r.
Qed.

(** X15. After a search for a text, when [findText] finds nothing, a
    movement returns and tells its callback at which end it stopped:
    [next_result] at the bottom and [prev_result] at the top after a
    forward search, the other way round after a backward one, whether
    wrapping was asked for or not; both emit [finished] with [False]. *)
Theorem movement_reports_the_end_it_stopped_at (wrap : bool) cb (t : str)
    (w : World) :
  text (self w) = Some t ->
  (forall f, fst (findText (_widget w) (Some t) f) = false) ->
  exists w1 w2,
    next_result wrap (Some cb) w = Ok w1 /\
    prev_result wrap (Some cb) w = Ok w2 /\
    scheduled (trace w1) =
      scheduled (trace w) ++
      [(cb, of_result
              (if backward (_flags (self w))
               then SearchNavigationResult.wrap_prevented_top
               else SearchNavigationResult.wrap_prevented_bottom))] /\
    scheduled (trace w2) =
      scheduled (trace w) ++
      [(cb, of_result
              (if backward (_flags (self w))
               then SearchNavigationResult.wrap_prevented_bottom
               else SearchNavigationResult.wrap_prevented_top))] /\
    finished (trace w1) = finished (trace w) ++ [false] /\
    finished (trace w2) = finished (trace w) ++ [false].
Proof.
  intros Ht Hnone.
  unfold WebKitSearch.next_result, WebKitSearch.prev_result.
  rewrite !call_findText_eq. cbn [fst snd self set_self _flags text
    with_search_displayed _widget].
  rewrite Ht, !Hnone.
  eexists _, _. split; [apply call_cb_returns|].
  split; [apply call_cb_returns|].
  rewrite !call_cb_finished. cbn [trace].
  rewrite !finished_app. cbn [WebKitSearch.finished]. rewrite !app_nil_r.
  fold (backward (_flags (self w))).
  set (F := _flags (self w)).
  unfold WebKitSearch._call_cb. cbn [world_of emit trace].
  rewrite !scheduled_app. cbn [WebKitSearch.scheduled].
  rewrite !app_nil_r.
  cbn [set_self trace].
  rewrite (direction_next wrap F), (direction_prev wrap F).
  split; [|split; [|split]]; try reflexivity.
  - now destruct (backward F).
  - now destruct (backward F).
Qed.

(** X16. A [search] for the text that is already displayed is dropped: it
    asks the page nothing, emits nothing and never calls its callback; it
    only sets the flags.  After [clear] the same search is made again: the
    page is cleared once more and asked for the text with the new flags,
    then asked again to highlight it, and the callback and [finished] get
    what [findText] found the first time. *)
Theorem repeated_search_is_dropped (t : str) ic rev cb ic' rev' cb'
    (w : World) :
  let w1 := world_of (search t ic rev cb w) in
  let w2 := world_of (search t ic' rev' (Some cb') w1) in
  let w3 := world_of (search t ic' rev' (Some cb') (clear w1)) in
  let f := _args_to_flags rev' ic' (self w1) in
  let cleared := clear (clear w1) in
  let found := fst (findText (_widget cleared) (Some t) f) in
  (search t ic rev cb w = Ok w1 /\
   search t ic' rev' (Some cb') w1 = Ok w2 /\
   search t ic' rev' (Some cb') (clear w1) = Ok w3) /\
  (trace w2 = trace w1 /\
   _widget w2 = _widget w1 /\
   self w2 = with_flags f (self w1)) /\
  (searched (trace w3) =
     searched (trace w1) ++
     [(Some [], 0); (Some [], HighlightAllOccurrences);
      (Some [], 0); (Some [], HighlightAllOccurrences);
      (Some t, f); (Some t, Z.lor f HighlightAllOccurrences)] /\
   scheduled (trace w3) = scheduled (trace w1) ++ [(cb', of_bool found)] /\
   finished (trace w3) = finished (trace w1) ++ [found] /\
   _widget w3 =
     snd (findText (snd (findText (_widget cleared) (Some t) f)) (Some t)
            (Z.lor f HighlightAllOccurrences)) /\
   self w3 = {| text := Some t; search_displayed := true; _flags := f |}).
Proof.
  intros w1 w2 w3 f cleared found.
  destruct (search_self t ic rev cb w) as [Ht Hd]. fold w1 in Ht, Hd.
  split; [|split].
  - repeat split; apply search_returns.
  - subst w2. unfold WebKitSearch.search.
    rewrite Ht, text_eqb_refl, Hd. cbn. auto.
  - assert (E : text_eqb (text (self (clear w1))) t &&
                search_displayed (self (clear w1)) = false)
      by now rewrite clear_self, andb_false_r.
    pose proof (search_runs t ic' rev' cb' (clear w1) E) as H.
    cbv zeta in H.
    assert (Ef : _args_to_flags rev' ic' (with_text (Some t) (self (clear w1)))
                 = f).
    { apply args_to_flags_text. rewrite clear_self. cbn. now rewrite Ht. }
    rewrite Ef in H. fold cleared in H. fold found in H. fold w3 in H.
    destruct H as (Hs & Hc & Hf & Hw & Hself).
    rewrite clear_scheduled in Hc. rewrite clear_finished in Hf.
    unfold cleared in Hs. rewrite !clear_searched in Hs.
    rewrite <- !app_assoc in Hs. cbn [app] in Hs.
    now repeat split.
Qed.

(** X17. A movement before any search, when there is no text yet, raises
    [TypeError]: the callback is never called and [finished] is not
    emitted, although the search already counts as displayed. *)
Theorem movement_without_text_raises (wrap : bool) cb (w : World) :
  text (self w) = None ->
  exists w1 w2,
    next_result wrap cb w = TypeError w1 /\
    prev_result wrap cb w = TypeError w2 /\
    scheduled (trace w1) = scheduled (trace w) /\
    scheduled (trace w2) = scheduled (trace w) /\
    finished (trace w1) = finished (trace w) /\
    finished (trace w2) = finished (trace w) /\
    search_displayed (self w1) = true /\
    search_displayed (self w2) = true.
Proof.
  intros Ht.
  unfold WebKitSearch.next_result, WebKitSearch.prev_result.
  rewrite !call_findText_eq. cbn [fst snd self set_self _flags text
    with_search_displayed _widget].
  rewrite Ht. cbn [WebKitSearch._call_cb].
  eexists _, _. split; [reflexivity|]. split; [reflexivity|].
  cbn [trace self search_displayed set_self].
  rewrite !scheduled_app, !finished_app. cbn. rewrite !app_nil_r.
  now repeat split.
Qed.

End Facts.

Lemma movement_reports_the_end_it_stopped_at_witness :
  exists w1 w2,
    next_result unit finds_nothing nat true (Some 7%nat) searching = Ok w1 /\
    prev_result unit finds_nothing nat true (Some 7%nat) searching = Ok w2 /\
    scheduled nat (trace w1) =
      [(7%nat, of_result SearchNavigationResult.wrap_prevented_bottom)] /\
    scheduled nat (trace w2) =
      [(7%nat, of_result SearchNavigationResult.wrap_prevented_top)] /\
    finished nat (trace w1) = [false] /\
    finished nat (trace w2) = [false].
Proof.
  apply (movement_reports_the_end_it_stopped_at finds_nothing true 7%nat
           [113%N] searching).
  - reflexivity.
  - intros f. reflexivity.
Defined.

Lemma movement_without_text_raises_witness :
  exists w1 w2,
    next_result unit finds_nothing nat false (Some 7%nat) unsearched =
      TypeError w1 /\
    prev_result unit finds_nothing nat false (Some 7%nat) unsearched =
      TypeError w2 /\
    scheduled nat (trace w1) = [] /\
    scheduled nat (trace w2) = [] /\
    finished nat (trace w1) = [] /\
    finished nat (trace w2) = [] /\
    search_displayed (self w1) = true /\
    search_displayed (self w2) = true.
Proof.
  apply (movement_without_text_raises finds_nothing false (Some 7%nat)
           unsearched).
  reflexivity.
Defined.

End WebKitSearchFacts.
